(** * qpath2: a shallow embedding of the geometry, masking and tiling core

    Python integers are [Z]; the floating-point coordinates of the
    annotation code are modelled by exact rationals [Q].  Python exceptions
    are the constructors of [exn]; a call that may raise returns a
    [result]. *)

From Stdlib Require Import String ZArith QArith Qpower Qround Qminmax Bool Lia List.
Import ListNotations.

Open Scope Z_scope.

(** ** Python exceptions and fallible results *)

Inductive exn : Type :=
  | CoreError (msg : string)        (* qpath2.core.Error *)
  | StopIteration                   (* builtin StopIteration *)
  | ValueError (msg : string)       (* builtin ValueError *)
  | ZeroDivisionError
  | IndexError
  | TypeError (msg : string)
  | NameError (name : string).      (* unbound global name *)

Inductive result (A : Type) : Type :=
  | Ok (a : A)
  | Raise (e : exn).
Arguments Ok {A} a.
Arguments Raise {A} e.

Definition bind {A B} (r : result A) (f : A -> result B) : result B :=
  match r with
  | Ok a => f a
  | Raise e => Raise e
  end.

Notation "x <- r ;; k" := (bind r (fun x => k))
  (at level 61, r at next level, right associativity).

(** ** numpy helpers *)

(** [np.arange(start, stop, step)] on integers: the length is
    [ceil((stop - start) / step)], clipped at 0; a zero step raises. *)
Definition ceil_div (a b : Z) : Z := - ((- a) / b).

Definition arange (start stop step : Z) : result (list Z) :=
  if step =? 0 then Raise ZeroDivisionError
  else Ok (map (fun i => start + Z.of_nat i * step)
               (seq 0 (Z.to_nat (Z.max 0 (ceil_div (stop - start) step))))).

(** [np.meshgrid(xs, ys)]: two arrays of shape [len ys x len xs]. *)
Definition meshgrid (xs ys : list Z) : list (list Z) * list (list Z) :=
  (map (fun _ => xs) ys, map (fun y => map (fun _ => y) xs) ys).

(** [a.reshape((-1,)).tolist()] of a 2-D array: rows concatenated. *)
Definition reshape_flat (a : list (list Z)) : list Z := concat a.

(** ** TileExplorer: [qpath2.core.MRISlidingWindow] *)

Module TileExplorer.

Record MRISlidingWindow : Type := mkSW {
  image_shape : Z * Z;               (* (nrows, ncols) *)
  w_size : Z * Z;                    (* (width, height) *)
  start : Z * Z;                     (* (x0, y0) *)
  step : Z * Z;                      (* (x_step, y_step) *)
  k : Z;                             (* self._k *)
  top_left_corners : list (Z * Z)
}.

Definition set_k (st : MRISlidingWindow) (k' : Z) : MRISlidingWindow :=
  mkSW (image_shape st) (w_size st) (start st) (step st) k' (top_left_corners st).

(** [__init__] *)
Definition init (image_shape w_size start step : Z * Z)
    : result MRISlidingWindow :=
  let '(img_h, img_w) := image_shape in
  if (fst w_size <? 2) || (snd w_size <? 2) then
    Raise (ValueError "Window size too small.")
  else if (img_w <? fst start + fst w_size) || (img_h <? snd start + snd w_size) then
    Raise (ValueError "Start position and/or window size out of image.")
  else
    xs <- arange (fst start) (img_w - fst w_size + 1) (fst step) ;;
    ys <- arange (snd start) (img_h - snd w_size + 1) (snd step) ;;
    let '(x, y) := meshgrid xs ys in
    Ok (mkSW image_shape w_size start step 0
             (combine (reshape_flat x) (reshape_flat y))).

Definition total_steps (st : MRISlidingWindow) : Z :=
  Z.of_nat (length (top_left_corners st)).

Definition reset (st : MRISlidingWindow) : MRISlidingWindow := set_k st 0.

Definition window := (Z * Z * Z * Z)%type.

Definition here (st : MRISlidingWindow) : result window :=
  if (0 <=? k st) && (k st <? total_steps st) then
    let '(x0, y0) := nth (Z.to_nat (k st)) (top_left_corners st) (0, 0) in
    let x1 := Z.min (x0 + fst (w_size st)) (snd (image_shape st)) in
    let y1 := Z.min (y0 + snd (w_size st)) (fst (image_shape st)) in
    Ok (x0, y0, x1, y1)
  else Raise (CoreError "Position outside bounds").

(** A method call returns its result and the object's state afterwards;
    a raise inside [here()] leaves the state as it was at that point. *)
Definition last (st : MRISlidingWindow) : result window * MRISlidingWindow :=
  if 0 <? total_steps st then
    let st' := set_k st (total_steps st - 1) in (here st', st')
  else (Raise (CoreError "Empty iterator"), st).

Definition next (st : MRISlidingWindow) : result window * MRISlidingWindow :=
  if k st <? total_steps st then
    match here st with
    | Ok w => (Ok w, set_k st (k st + 1))
    | Raise e => (Raise e, st)
    end
  else (Raise StopIteration, st).

Definition prev (st : MRISlidingWindow) : result window * MRISlidingWindow :=
  if 1 <=? k st then
    let st' := set_k st (k st - 1) in (here st', st')
  else (Raise StopIteration, st).

End TileExplorer.

(** The words of the spec for the explorer's enumeration: the stepped range
    [lo, lo + s, ...] up to [hi], and the step count
    [ceil((W-w)/sx + 1) * ceil((H-h)/sy + 1)] computed over the rationals. *)
Module TileExplorerSpec.

Definition stepped (lo hi s : Z) : list Z :=
  map (fun i => lo + Z.of_nat i * s) (seq 0 (Z.to_nat ((hi - lo) / s + 1))).

Definition row_major (xs ys : list Z) : list (Z * Z) :=
  flat_map (fun y => map (fun x => (x, y)) xs) ys.

Definition spec_total_steps (W H w h sx sy : Z) : Z :=
  Qceiling (inject_Z (W - w) / inject_Z sx + 1)%Q *
  Qceiling (inject_Z (H - h) / inject_Z sy + 1)%Q.

End TileExplorerSpec.

(** ** GeometryKernel: [qpath2.compgeom]

    A polygon is an [(n x 2)] array of [(x, y)] rows.  The wrappers of
    [qpath2.compgeom] call the native functions of [qpath2.compgeom_] and
    CGAL's [Polygon_2.is_convex]; these are the class [NativeGeometry], of
    which [GeometryModel] below gives an instance. *)

Definition point := (Q * Q)%type.
Definition polygon := list point.

(** [P[:,0].tolist()] and [P[:,1].tolist()] *)
Definition xs_of (P : polygon) : list Q := map fst P.
Definition ys_of (P : polygon) : list Q := map snd P.

Class NativeGeometry : Type := {
  (** [polygon_equality_(Px, Py, Qx, Qy)]: a status code *)
  polygon_equality_ : list Q -> list Q -> list Q -> list Q -> Z;
  (** [simple_polygon_intersection_(Px, Py, Qx, Qy, rx, ry, rn)]: the status
      code and the output lists [rx], [ry] (vertices of all components, one
      after the other) and [rn] (the vertex count of each component) *)
  simple_polygon_intersection_ :
    list Q -> list Q -> list Q -> list Q -> Z * (list Q * list Q * list nat);
  (** [point_wrt_polygon_(px, py, Qx, Qy, r)]: the status code and [r] *)
  point_wrt_polygon_ : list Q -> list Q -> list Q -> list Q -> Z * list Z;
  (** [Polygon_2(P).is_convex()] (CGAL) *)
  cgal_is_convex : polygon -> bool
}.

Module Compgeom.
Section Wrappers.
Context `{NativeGeometry}.

Definition polygon_equality (P Q : polygon) : result bool :=
  let n := polygon_equality_ (xs_of P) (ys_of P) (xs_of Q) (ys_of Q) in
  if 0 <=? n then Ok (negb (n =? 0))
  else if (n =? -1) || (n =? -2) then Raise (CoreError "Size mismatch in P or Q")
  else Raise (CoreError "Unknown error").

Definition polygon_is_convex (P : polygon) : bool := cgal_is_convex P.

(** [np.cumsum(rn).tolist()] *)
Fixpoint cumsum (acc : nat) (l : list nat) : list nat :=
  match l with
  | [] => []
  | x :: l' => (acc + x)%nat :: cumsum (acc + x) l'
  end.

(** [l[i:j]] for [0 <= i], [0 <= j] *)
Definition slice {A} (l : list A) (i j : nat) : list A := firstn (j - i) (skipn i l).

(** [[np.array(zip(rx[i:j], ry[i:j])) for i, j in zip(b, e)]] *)
Definition split_components (rx ry : list Q) (rn : list nat) : list polygon :=
  let e := cumsum 0 rn in
  let b := 0%nat :: removelast e in
  map (fun '(i, j) => combine (slice rx i j) (slice ry i j)) (combine b e).

Definition simple_polygon_intersection (P Q : polygon) : result (list polygon) :=
  let '(n, (rx, ry, rn)) :=
    simple_polygon_intersection_ (xs_of P) (ys_of P) (xs_of Q) (ys_of Q) in
  if n =? 0 then Ok []
  else if (n =? -1) || (n =? -2) then Raise (CoreError "Size mismatch in P or Q")
  else if n =? -3 then Raise (CoreError "The polygons are not simple")
  else if n =? -4 then Raise (CoreError "The intersection is not bounded")
  else if 1 <? n then Ok (split_components rx ry rn)
  else Ok [combine rx ry].

Definition point_wrt_polygon (points : list point) (Q : polygon) : result (list Z) :=
  let '(n, r) := point_wrt_polygon_ (map fst points) (map snd points)
                                    (xs_of Q) (ys_of Q) in
  if (n =? -1) || (n =? -2) then Raise (CoreError "Size mismatch in p or Q")
  else if n <? -2 then Raise (CoreError "Unspecific error")
  else Ok r.

(** [np.array([r0, (r0[0],r1[1]), r1, (r1[0],r0[1])])] *)
Definition rect_polygon (r0 r1 : point) : polygon :=
  [r0; (fst r0, snd r1); r1; (fst r1, snd r0)].

Definition rect_inside_polygon (r0 r1 : point) (P : polygon) : result bool :=
  if polygon_is_convex P then
    r <- point_wrt_polygon [r0; r1] P ;;
    Ok (forallb (fun c => c =? 1) r)
  else
    r <- simple_polygon_intersection P (rect_polygon r0 r1) ;;
    if (length r =? 0)%nat || (1 <? length r)%nat then Ok false
    else polygon_equality P (nth 0 r []).

Definition polygon_inside_polygon (P Q : polygon) : result bool :=
  r <- simple_polygon_intersection P Q ;;
  if (length r =? 0)%nat || (1 <? length r)%nat then Ok false
  else polygon_equality P (nth 0 r []).

End Wrappers.
End Compgeom.

(** Modelled from the spec: the native predicates of [qpath2.compgeom_]
    (not in the sources) and CGAL's convexity test, on exact rationals.
    [point_wrt_polygon_] reports 1 (INSIDE), 0 (BOUNDARY) or -1 (OUTSIDE)
    per point, BOUNDARY for a point on an edge, otherwise by the parity of
    the edges crossed by the ray to the right of the point; it answers -1 for
    an empty point list and -2 for a polygon of fewer than 3 vertices.  A
    polygon is convex when every turn between consecutive edges has the
    same orientation. *)
Module GeometryModel.
Open Scope Q_scope.

Definition Qltb (a b : Q) : bool := negb (Qle_bool b a).

Definition cross (o a b : point) : Q :=
  (fst a - fst o) * (snd b - snd o) - (snd a - snd o) * (fst b - fst o).

(** the edges [(P[j], P[i])], [j = i - 1], the first closing the contour *)
Definition edges (P : polygon) : list (point * point) :=
  match P with
  | [] => []
  | p0 :: _ => combine (List.last P p0 :: removelast P) P
  end.

Definition on_segment (p a b : point) : bool :=
  Qeq_bool (cross a b p) 0 &&
  Qle_bool (Qmin (fst a) (fst b)) (fst p) && Qle_bool (fst p) (Qmax (fst a) (fst b)) &&
  Qle_bool (Qmin (snd a) (snd b)) (snd p) && Qle_bool (snd p) (Qmax (snd a) (snd b)).

Definition crosses (p a b : point) : bool :=
  negb (Bool.eqb (Qltb (snd p) (snd a)) (Qltb (snd p) (snd b))) &&
  Qltb (fst p) (fst a + (snd p - snd a) * (fst b - fst a) / (snd b - snd a)).

Definition classify_point (p : point) (P : polygon) : Z :=
  if existsb (fun '(a, b) => on_segment p a b) (edges P) then 0%Z
  else if fold_left (fun c '(a, b) => xorb c (crosses p a b)) (edges P) false
  then 1%Z else (-1)%Z.

Definition model_point_wrt (px py Qx Qy : list Q) : Z * list Z :=
  if (length px =? 0)%nat then ((-1)%Z, [])
  else if (length Qx <? 3)%nat then ((-2)%Z, [])
  else (0%Z, map (fun p => classify_point p (combine Qx Qy)) (combine px py)).

Definition turns (P : polygon) : list Q :=
  match P with
  | [] => []
  | p0 :: rest =>
      let nxt := rest ++ [p0] in
      let nxt2 := match nxt with [] => [] | q :: r => r ++ [q] end in
      map (fun '(a, (b, c)) => cross a b c) (combine P (combine nxt nxt2))
  end.

Definition model_is_convex (P : polygon) : bool :=
  forallb (fun t => Qle_bool 0 t) (turns P) || forallb (fun t => Qle_bool t 0) (turns P).

End GeometryModel.

(** A kernel whose convexity test and point classification are the models
    above.  Its polygon-polygon natives answer the status of an unspecified
    internal error (-5): [rect_inside_polygon] never calls them on a convex
    polygon. *)
#[local] Instance convex_kernel : NativeGeometry := {|
  polygon_equality_ := fun _ _ _ _ => (-5)%Z;
  simple_polygon_intersection_ := fun _ _ _ _ => ((-5)%Z, ([], [], []));
  point_wrt_polygon_ := GeometryModel.model_point_wrt;
  cgal_is_convex := GeometryModel.model_is_convex
|}.


(** Modelled from the spec: the output contract of the native
    [simple_polygon_intersection_] (not in the sources): a positive status
    [n] is the number of intersection components, and [rn] then holds one
    vertex count per component. *)
Definition intersection_output_contract (n : Z) (rn : list nat) : Prop :=
  0 < n -> length rn = Z.to_nat n.

(** ** RegionMask: [qpath2.masks] *)

(** Python's [range(a, b)] *)
Definition zrange (a b : Z) : list Z :=
  map (fun i => a + Z.of_nat i) (seq 0 (Z.to_nat (b - a))).

(** [skimage.draw.polygon(r, c, shape)] of scikit-image 0.13 (an external
    library), as its Cython sources [_polygon] and [point_in_polygon] do
    it: every pixel of the bounding box, clipped to [shape], is tested by
    the crossing rule over the edges [(i, j)], [j = i - 1], [j] starting at
    the last vertex. *)
Module Skimage.
Local Open Scope Q_scope.

Definition Qltb (a b : Q) : bool := negb (Qle_bool b a).

(** [ndarray.min()] and [ndarray.max()]; both raise on an empty array *)
Definition qmin (a b : Q) : Q := if Qle_bool a b then a else b.
Definition qmax (a b : Q) : Q := if Qle_bool b a then a else b.

Definition np_min (l : list Q) : result Q :=
  match l with [] => Raise (ValueError "zero-size array") | a :: l' => Ok (fold_left qmin l' a) end.
Definition np_max (l : list Q) : result Q :=
  match l with [] => Raise (ValueError "zero-size array") | a :: l' => Ok (fold_left qmax l' a) end.

(** the test of edge [(i, j)] in [point_in_polygon] *)
Definition edge_toggle (pi pj : Q * Q) (x y : Q) : bool :=
  let '(xi, yi) := pi in
  let '(xj, yj) := pj in
  ((Qle_bool yi y && Qltb y yj) || (Qle_bool yj y && Qltb y yi)) &&
  Qltb x ((xj - xi) * (y - yi) / (yj - yi) + xi).

Fixpoint pip_loop (pj : Q * Q) (pts : list (Q * Q)) (x y : Q) (c : bool) : bool :=
  match pts with
  | [] => c
  | pi :: pts' => pip_loop pi pts' x y (if edge_toggle pi pj x y then negb c else c)
  end.

(** [point_in_polygon(nr_verts, xp, yp, x, y)] *)
Definition point_in_polygon (xp yp : list Q) (x y : Q) : bool :=
  let pts := combine xp yp in
  match pts with
  | [] => false
  | p0 :: _ => pip_loop (List.last pts p0) pts x y false
  end.

(** [_polygon(r, c, shape)]: the lists [(rr, cc)] *)
Definition polygon (r c : list Q) (shape : Z * Z) : result (list Z * list Z) :=
  rmin <- np_min r ;; rmax <- np_max r ;; cmin <- np_min c ;; cmax <- np_max c ;;
  let minr := Qfloor (Qmax 0 rmin) in
  let maxr := Z.min (fst shape - 1) (Qceiling rmax) in
  let minc := Qfloor (Qmax 0 cmin) in
  let maxc := Z.min (snd shape - 1) (Qceiling cmax) in
  let px := flat_map (fun r_i =>
              flat_map (fun c_i =>
                if point_in_polygon c r (inject_Z c_i) (inject_Z r_i)
                then [(r_i, c_i)] else [])
                (zrange minc (maxc + 1)))
              (zrange minr (maxr + 1)) in
  Ok (map fst px, map snd px).

End Skimage.

Module Masks.
Local Open Scope Q_scope.

(** [masked_points(poly_line, shape)]: the pair [(c, r)].  The closed copy
    built by [np.vstack] when the first and last vertices differ is not
    assigned to anything, so the rasterized vertex list is [poly_line]. *)
Definition masked_points (poly_line : polygon) (shape : Z * Z)
    : result (list Z * list Z) :=
  match poly_line with
  | [] => Raise IndexError
  | p0 :: _ =>
      let last_row := List.last poly_line p0 in
      let _ := if negb (Qeq_bool (fst p0) (fst last_row)) ||
                  negb (Qeq_bool (snd p0) (snd last_row))
               then poly_line ++ [p0] else poly_line in
      rc <- Skimage.polygon (ys_of poly_line) (xs_of poly_line) shape ;;
      let '(r, c) := rc in Ok (c, r)
  end.

End Masks.

(** [apply_mask(img, mask)] of [qpath2.masks].  Arrays are objects shared
    with the caller: the function returns the image after the call and the
    caller's mask object after the call. *)
Module ApplyMask.

Inductive dtype : Type := Bool_ | UInt8 | Int32 | Int64 | Float32 | Float64.

(** A 2-D numpy array used as a mask: its dtype and its rows (an array
    with no rows has shape (0, 0) here). Its entries are whole numbers. *)
Record ndarray2 : Type := mkArray2 { dt : dtype; data : list (list Z) }.

(** A numpy scalar of the image: an integer of a bool or integer dtype, or
    a binary floating-point number [k * 2^e] (with [k] odd, or [k = 0] and
    [e = 0]), an infinity or NaN. The sign of a floating-point zero is not
    kept. *)
Inductive num : Type :=
  | NInt (z : Z)
  | NFloat (k e : Z)
  | NInf (neg : bool)
  | NNaN.

(** ** IEEE 754 binary formats, rounding to nearest, ties to even *)

(** precision, exponent of the smallest subnormal's digit, largest
    exponent of a leading digit *)
Record fmt : Type := mkFmt { prec : Z; emin : Z; emax : Z }.

Definition binary32 : fmt := mkFmt 24 (-149) 127.
Definition binary64 : fmt := mkFmt 53 (-1074) 1023.

(** [k * 2^e] with the trailing zero bits of [k] moved to the exponent *)
Definition normalize (k e : Z) : num :=
  if k =? 0 then NFloat 0 0
  else let t := Z.log2 (Z.land k (- k)) in NFloat (Z.shiftr k t) (e + t).

(** [a / 2^s] rounded to the nearest integer, ties to even ([a >= 0], [s > 0]) *)
Definition shr_rne (a s : Z) : Z :=
  let q := Z.shiftr a s in
  let r := a - Z.shiftl q s in
  let half := Z.shiftl 1 (s - 1) in
  if (half <? r) || ((r =? half) && Z.odd q) then q + 1 else q.

(** the number [k * 2^e] rounded to the format [f] *)
Definition round (f : fmt) (k e : Z) : num :=
  if k =? 0 then NFloat 0 0 else
  let a := Z.abs k in
  let u := Z.max (Z.log2 a + e - (prec f - 1)) (emin f) in
  let '(a', e') := if u <=? e then (a, e) else (shr_rne a (u - e), u) in
  if a' =? 0 then NFloat 0 0
  else if emax f <? Z.log2 a' + e' then NInf (k <? 0)
  else normalize (Z.sgn k * a') e'.

Definition to_float (f : fmt) (v : num) : num :=
  match v with
  | NInt z => round f z 0
  | NFloat k e => round f k e
  | _ => v
  end.

(** [a * b] in the format [f], for two numbers of that format *)
Definition float_mul (f : fmt) (a b : num) : num :=
  match a, b with
  | NNaN, _ | _, NNaN => NNaN
  | NInf s, NInf t => NInf (xorb s t)
  | NInf s, NFloat k _ | NFloat k _, NInf s => if k =? 0 then NNaN else NInf (xorb s (k <? 0))
  | NFloat k1 e1, NFloat k2 e2 => round f (k1 * k2) (e1 + e2)
  | _, _ => NNaN      (* not reached: both operands are converted to [f] first *)
  end.

(** ** numpy's dtypes: wrap-around, promotion and the 'same_kind' rule *)

(** an integer reduced to [bits] bits, two's complement when [signed] *)
Definition wrap (bits : Z) (signed : bool) (z : Z) : Z :=
  let m := 2 ^ bits in
  if signed then (z + m / 2) mod m - m / 2 else z mod m.

(** [np.promote_types]: the dtype of the loop [np.multiply] selects *)
Definition promote (a b : dtype) : dtype :=
  match a, b with
  | Bool_, d | d, Bool_ => d
  | Float64, _ | _, Float64 => Float64
  | Float32, (UInt8 | Float32) | UInt8, Float32 => Float32
  | Float32, _ | _, Float32 => Float64
  | Int64, _ | _, Int64 => Int64
  | Int32, _ | _, Int32 => Int32
  | UInt8, UInt8 => UInt8
  end.

(** the kinds b < u < i < f of numpy's casting table *)
Definition kind_order (d : dtype) : Z :=
  match d with
  | Bool_ => 0 | UInt8 => 1 | Int32 | Int64 => 2 | Float32 | Float64 => 4
  end.

(** [np.can_cast(src, dst, casting='same_kind')] *)
Definition same_kind (src dst : dtype) : bool := kind_order src <=? kind_order dst.

Definition dtype_name (d : dtype) : string :=
  match d with
  | Bool_ => "bool" | UInt8 => "uint8" | Int32 => "int32" | Int64 => "int64"
  | Float32 => "float32" | Float64 => "float64"
  end.

(** a value of a dtype of kind at most [d]'s, converted to [d] *)
Definition cast (d : dtype) (v : num) : num :=
  match d, v with
  | UInt8, NInt z => NInt (wrap 8 false z)
  | Int32, NInt z => NInt (wrap 32 true z)
  | Int64, NInt z => NInt (wrap 64 true z)
  | Float32, _ => to_float binary32 v
  | Float64, _ => to_float binary64 v
  | _, _ => v
  end.

Definition nonzero (v : num) : bool :=
  match v with NInt z => negb (z =? 0) | NFloat k _ => negb (k =? 0) | _ => true end.

(** the multiplication loop of [np.multiply] for the dtype [r] *)
Definition mul_in (r : dtype) (a b : num) : num :=
  match r, a, b with
  | Bool_, _, _ => NInt (if nonzero a && nonzero b then 1 else 0)
  | Float32, _, _ => float_mul binary32 a b
  | Float64, _, _ => float_mul binary64 a b
  | _, NInt x, NInt y => cast r (NInt (x * y))
  | _, _, _ => NNaN   (* not reached: integer loops get integers *)
  end.

(** one element of [a *= mask]: [x] of dtype [d], [mv] of dtype [md] *)
Definition imul_elem (d md : dtype) (x : num) (mv : Z) : num :=
  let r := promote d md in
  cast d (mul_in r (cast r x) (cast r (NInt mv))).

(** ** [a *= mask] on 2-D arrays *)

(** [a.shape] of a 2-D array given by its rows *)
Definition shape2d {A} (a : list (list A)) : nat * nat :=
  (length a, match a with r :: _ => length r | [] => 0%nat end).

Definition mapi {A B} (f : nat -> A -> B) (l : list A) : list B :=
  map (fun '(i, x) => f i x) (combine (seq 0 (length l)) l).

(** the index into an axis of length [n] that broadcasting reads for [i] *)
Definition bidx (n i : nat) : nat := if (n =? 1)%nat then 0%nat else i.

(** [mask] broadcast to index [(i, j)] *)
Definition mask_at (m : list (list Z)) (i j : nat) : Z :=
  let '(h, w) := shape2d m in nth (bidx w j) (nth (bidx h i) m []) 0.

(** two axis lengths broadcast together *)
Definition bcast_compat (n k : nat) : bool := (n =? k)%nat || (n =? 1)%nat || (k =? 1)%nat.

(** an operand's axis of length [k] broadcasts to an output axis of length [n] *)
Definition fits_out (n k : nat) : bool := (k =? n)%nat || (k =? 1)%nat.

Definition mul_plane (d md : dtype) (a : list (list num)) (m : list (list Z))
    : list (list num) :=
  mapi (fun i row => mapi (fun j x => imul_elem d md x (mask_at m i j)) row) a.

(** [a *= m] for a 2-D array [a] of dtype [d] and a 2-D mask of dtype [md]:
    the output dtype is checked first, then the shapes *)
Definition imul2 (d md : dtype) (a : list (list num)) (m : list (list Z))
    : result (list (list num)) :=
  let r := promote d md in
  if negb (same_kind r d) then
    Raise (TypeError (String.append "Cannot cast ufunc 'multiply' output from dtype('"
             (String.append (dtype_name r) (String.append "') to dtype('"
             (String.append (dtype_name d) "') with casting rule 'same_kind'")))))
  else
    let '(H, W) := shape2d a in
    let '(h, w) := shape2d m in
    if negb (bcast_compat H h && bcast_compat W w) then
      Raise (ValueError "operands could not be broadcast together")
    else if negb (fits_out H h && fits_out W w) then
      Raise (ValueError "non-broadcastable output operand")
    else Ok (mul_plane d md a m).

(** ** The image buffers *)

(** The pixel buffers [apply_mask] accepts: a 2-D numpy array, a
    [height x width x channels] numpy array (an image with no pixels has
    no channels here), and a [vigra.VigraArray] seen through
    [channelIter()], one 2-D plane per channel; each with its dtype. *)
Inductive image : Type :=
  | NdArray2 (d : dtype) (px : list (list num))
  | NdArray3 (d : dtype) (px : list (list (list num)))
  | VigraArray (d : dtype) (planes : list (list (list num))).

Definition map2 {A B C} (f : A -> B -> C) (l1 : list A) (l2 : list B) : list C :=
  map (fun '(a, b) => f a b) (combine l1 l2).

(** [l[k] = v] *)
Definition set_nth {A} (k : nat) (v : A) (l : list A) : list A :=
  firstn k l ++ [v] ++ skipn (S k) l.

(** [img[:,:,k]] *)
Definition channel (k : nat) (px : list (list (list num))) : list (list num) :=
  map (map (fun p => nth k p NNaN)) px.

(** [img[:,:,k] = plane] *)
Definition set_channel (k : nat) (px : list (list (list num))) (plane : list (list num))
    : list (list (list num)) :=
  map2 (map2 (fun p v => set_nth k v p)) px plane.

(** [img[:,:,k] *= mask] *)
Definition mul_channel (d md : dtype) (k : nat) (px : list (list (list num)))
    (m : list (list Z)) : result (list (list (list num))) :=
  c <- imul2 d md (channel k px) m ;; Ok (set_channel k px c).

(** [img.shape[2]] *)
Definition shape2 {A} (img : list (list (list A))) : nat :=
  match img with (px :: _) :: _ => length px | _ => 0%nat end.

Fixpoint fold_result {A B} (f : A -> B -> result A) (l : list B) (a : A) : result A :=
  match l with
  | [] => Ok a
  | b :: l' => a' <- f a b ;; fold_result f l' a'
  end.

(** [for c in ch_iter: c *= mask] *)
Fixpoint each {A} (f : A -> result A) (l : list A) : result (list A) :=
  match l with
  | [] => Ok []
  | x :: l' => y <- f x ;; ys <- each f l' ;; Ok (y :: ys)
  end.

(** [mask.dtype is np.bool]: an identity test between a dtype object and
    the builtin type [bool], false whatever the dtype. *)
Definition dtype_is_np_bool (d : dtype) : bool := false.

(** [mask[mask > 0] = 1] *)
Definition clamp (m : list (list Z)) : list (list Z) :=
  map (map (fun v => if 0 <? v then 1 else v)) m.

(** The outcome for the image (the updated buffer, or the exception the
    in-place multiplication raises) and the caller's mask object after the
    call. *)
Definition apply_mask (img : image) (mask : ndarray2) : result image * ndarray2 :=
  (* [mask = mask.astype(np.uint8)] rebinds the local name to a copy *)
  let rebound := dtype_is_np_bool (dt mask) in
  let local := if rebound then mkArray2 UInt8 (data mask) else mask in
  let local' := mkArray2 (dt local) (clamp (data local)) in
  let caller_mask := if rebound then mask else local' in
  let md := dt local' in
  let m := data local' in
  let img' :=
    match img with
    | VigraArray d planes =>
        planes' <- each (fun c => imul2 d md c m) planes ;; Ok (VigraArray d planes')
    | NdArray2 d px => px' <- imul2 d md px m ;; Ok (NdArray2 d px')
    | NdArray3 d px =>
        px' <- fold_result (fun im k => mul_channel d md k im m) (seq 0 (shape2 px)) px ;;
        Ok (NdArray3 d px')
    end in
  (img', caller_mask).

(** [img[i, j]] for a 2-D array, [img[i, j, k]] for a 3-D one *)
Definition at2 {A} (a : list (list A)) (i j : nat) : option A :=
  match nth_error a i with Some row => nth_error row j | None => None end.

Definition value (img : image) (i j k : nat) : option num :=
  match img with
  | NdArray2 _ px => if (k =? 0)%nat then at2 px i j else None
  | NdArray3 _ px => match at2 px i j with Some p => nth_error p k | None => None end
  | VigraArray _ planes =>
      match nth_error planes k with Some c => at2 c i j | None => None end
  end.

Definition img_dtype (img : image) : dtype :=
  match img with NdArray2 d _ | NdArray3 d _ | VigraArray d _ => d end.

(** the number of 2-D multiplications [apply_mask] performs *)
Definition channels (img : image) : nat :=
  match img with
  | NdArray2 _ _ => 1%nat
  | NdArray3 _ px => shape2 px
  | VigraArray _ planes => length planes
  end.

(** the height and width of the image's 2-D planes *)
Definition plane_shape (img : image) : nat * nat :=
  match img with
  | NdArray2 _ px | NdArray3 _ px => shape2d px
  | VigraArray _ planes => match planes with c :: _ => shape2d c | [] => (0, 0)%nat end
  end.

(** a rectangular 2-D array *)
Definition rect2 {A} (a : list (list A)) : Prop :=
  Forall (fun row => length row = snd (shape2d a)) a.

(** a value the dtype [d] holds *)
Definition valid (d : dtype) (v : num) : bool :=
  match d, v with
  | Bool_, NInt z => (z =? 0) || (z =? 1)
  | UInt8, NInt z => wrap 8 false z =? z
  | Int32, NInt z => wrap 32 true z =? z
  | Int64, NInt z => wrap 64 true z =? z
  | Float32, NFloat k e =>
      match round binary32 k e with NFloat k' e' => (k' =? k) && (e' =? e) | _ => false end
  | Float64, NFloat k e =>
      match round binary64 k e with NFloat k' e' => (k' =? k) && (e' =? e) | _ => false end
  | (Float32 | Float64), (NInf _ | NNaN) => true
  | _, _ => false
  end.

(** a numpy array: rectangular, every pixel of a 3-D array with
    [img.shape[2]] channels, the planes of a vigra array of one shape *)
Definition shaped (img : image) : Prop :=
  match img with
  | NdArray2 _ px => rect2 px
  | NdArray3 _ px => rect2 px /\ Forall (Forall (fun p => length p = shape2 px)) px
  | VigraArray _ planes =>
      Forall (fun c => rect2 c /\ shape2d c = plane_shape img) planes
  end.

Definition well_formed (img : image) : Prop :=
  shaped img /\
  forall i j k v, value img i j k = Some v -> valid (img_dtype img) v = true.

(** [0] in the dtype [d] *)
Definition zero_of (d : dtype) : num :=
  match d with Float32 | Float64 => NFloat 0 0 | _ => NInt 0 end.

Definition finite (v : num) : bool :=
  match v with NInf _ | NNaN => false | _ => true end.

End ApplyMask.

(** ** CoordinateMapper: [qpath2.annot.tools.ndpa2xy]

    The float arithmetic is computed exactly over [Q]; [long(v)] truncates
    toward zero; [x_size / 2] on the [long] extent is Python 2's floor
    division; [x_offset] is a [long]. *)
Module Ndpa.

Record level_info : Type := mkLevel { x_size : Z; y_size : Z }.

Record wsi_params : Type := mkParams {
  vendor : string;
  level_count : Z;
  x_offset : Z;
  y_offset : Z;
  x_mpp : Q;
  y_mpp : Q;
  level0 : level_info            (* wsi_params['levels'][0] *)
}.

(** [long(v)] for a float [v] *)
Definition Qtrunc (q : Q) : Z := Z.quot (Qnum q) (Zpos (Qden q)).

(** [a / b] on floats: division by zero raises *)
Definition fdiv (a b : Q) : result Q :=
  if Qeq_bool b 0 then Raise ZeroDivisionError else Ok (a / b)%Q.

Definition convert_point (w : wsi_params) (d : Q) (p : Q * Q) : result (Z * Z) :=
  let '(x, y) := p in
  let x := (x - inject_Z (x_offset w))%Q in
  let y := (y - inject_Z (y_offset w))%Q in
  x <- fdiv x (1000 * x_mpp w) ;;
  y <- fdiv y (1000 * y_mpp w) ;;
  x <- fdiv (x + inject_Z (x_size (level0 w) / 2)) d ;;
  y <- fdiv (y + inject_Z (y_size (level0 w) / 2)) d ;;
  Ok (Qtrunc x, Qtrunc y).

Fixpoint convert_all (w : wsi_params) (d : Q) (pts : list (Q * Q)) : result (list (Z * Z)) :=
  match pts with
  | [] => Ok []
  | p :: pts' => xy <- convert_point w d p ;; rest <- convert_all w d pts' ;; Ok (xy :: rest)
  end.

Definition ndpa2xy (ndpa_pts : list (Q * Q)) (level : Z) (w : wsi_params)
    : result (list (Z * Z)) :=
  if negb (String.eqb (vendor w) "hamamatsu") then Raise (CoreError "vendor mismatch")
  else if level >? level_count w then Raise (CoreError "level out of bounds")
  else
    let d := Qpower 2 level in
    xy <- convert_all w d ndpa_pts ;;
    if existsb (fun '(x, y) => (x <? 0) || (y <? 0)) xy
    then Raise (CoreError "negative coordinates")
    else Ok xy.


(** The per-axis value the loop body computes, written as one expression:
    [long(((physical - offset) / (1000 * mpp) + extent // 2) / 2**level)]. *)
Definition trunc_pixel (phys : Q) (offset : Z) (mpp : Q) (extent level : Z) : Z :=
  Qtrunc (((phys - inject_Z offset) / (1000 * mpp) + inject_Z (extent / 2))
          / Qpower 2 level)%Q.

Definition pixel_of (w : wsi_params) (level : Z) (p : Q * Q) : Z * Z :=
  (trunc_pixel (fst p) (x_offset w) (x_mpp w) (x_size (level0 w)) level,
   trunc_pixel (snd p) (y_offset w) (y_mpp w) (y_size (level0 w)) level).

End Ndpa.

(** ** Annotation objects: [qpath2.annot.core]

    [xy] is the array of rows; after [np.array(x)[:, :2]] a row holds at
    most two coordinates. *)
Module Annot.

Record annotation : Type := mkAnnot {
  annotation_type : string;
  name : string;
  xy : list (list Q)
}.

(** the argument [x] of the constructors: an iterable of rows, a flat
    sequence of numbers, or a non-iterable value *)
Inductive x_arg : Type :=
  | XRows (rows : list (list Q))
  | XFlat (v : list Q)
  | XScalar (v : Q).

(** the argument [y]: absent, a name, or the second coordinate sequence *)
Inductive y_arg : Type :=
  | YNone
  | YName (s : string)
  | YCoords (ys : list Q).

(** [np.array(x, dtype=np.float64)[:, :2]]: a rectangular 2-D array is
    cut to its first two columns; an empty, flat or ragged one has no
    second axis (or no float conversion) and raises. *)
Definition array_cols2 (x : x_arg) : result (list (list Q)) :=
  match x with
  | XRows [] => Raise IndexError
  | XRows ((r :: _) as rows) =>
      if forallb (fun r' => (length r' =? length r)%nat) rows
      then Ok (map (firstn 2) rows) else Raise (ValueError "ragged rows")
  | XFlat _ => Raise IndexError
  | XScalar _ => Raise (CoreError "x parameter cannot be interpretated as a 2D array")
  end.

(** [PointSet.__init__(x, y, name)] *)
Definition pointset_init (x : x_arg) (y : y_arg) (nm : option string)
    : result annotation :=
  let name0 := match nm with Some s => s | None => "POINTS"%string end in
  match y with
  | YCoords ys =>
      match x with
      | XFlat xs =>
          (* [np.array(zip(x, y), dtype=np.float64)] *)
          Ok (mkAnnot "POINTSET" name0 (map (fun '(a, b) => [a; b]) (combine xs ys)))
      | XRows _ => Raise (ValueError "setting an array element with a sequence")
      | XScalar _ => Raise (TypeError "zip argument #1 must support iteration")
      end
  | YName s => xy <- array_cols2 x ;; Ok (mkAnnot "POINTSET" s xy)
  | YNone => xy <- array_cols2 x ;; Ok (mkAnnot "POINTSET" name0 xy)
  end.








End Annot.

(** [qpath2/annot/operators.py]: [poly_annot_inside]. The module's global
    names are those its import statements and [def]s bind; a name that is
    neither one of them nor a builtin raises [NameError] when evaluated. *)
Module Operators.

Definition operators_globals : list string :=
  ["np"; "simple_polygon_intersection"; "rect_inside_polygon"; "add_region";
   "apply_mask"; "Error"; "expandSlicing"; "polygon";
   "poly_annot_set_outside"; "poly_annot_copy_region"; "poly_annot_inside"]%string.

(** the builtins the module's functions refer to *)
Definition builtins : list string := ["len"; "range"; "dict"; "list"]%string.

(** evaluating a global name *)
Definition load_global (globs : list string) (n : string) : result unit :=
  if existsb (String.eqb n) (globs ++ builtins) then Ok tt else Raise (NameError n).

(** the vigra array operations the function calls once [vigra] resolves:
    the zero-filled ROI mask, [add_region], [apply_mask] and the final
    [1 - mask], [*= outside_value] and per-channel [+=] *)
Record vigra_ops (Img Mask : Type) : Type := mkVigraOps {
  new_roi_mask : Img -> Mask;
  add_region : Mask -> polygon -> Mask;
  apply_mask : Img -> Mask -> Img;
  fill_outside : Img -> Mask -> Q -> Img
}.
Arguments new_roi_mask {Img Mask}.
Arguments add_region {Img Mask}.
Arguments apply_mask {Img Mask}.
Arguments fill_outside {Img Mask}.

Section PolyAnnotInside.
Context `{NativeGeometry}.
Context {Img Mask : Type} (ops : vigra_ops Img Mask).

(** [q -= [x0, y0]] *)
Definition shift (x0 y0 : Q) (q : polygon) : polygon :=
  map (fun '(x, y) => (x - x0, y - y0)%Q) q.

(** the [for a in ann] loop: [inl img] is the early [return img],
    [inr roi_mask] the mask when the loop ends *)
Fixpoint annot_loop (img : Img) (x0 y0 x1 y1 : Q) (r : polygon)
    (ann : list (string * polygon)) (roi_mask : Mask) : result (Img + Mask) :=
  match ann with
  | [] => Ok (inr roi_mask)
  | (_, P) :: ann' =>
      inside <- Compgeom.rect_inside_polygon (x0, y0) (x1, y1) P ;;
      if inside then Ok (inl img)
      else
        intr <- Compgeom.simple_polygon_intersection r P ;;
        let roi_mask := fold_left (fun m q => add_region ops m (shift x0 y0 q)) intr roi_mask in
        annot_loop img x0 y0 x1 y1 r ann' roi_mask
  end.

Definition poly_annot_inside (globs : list string) (img : Img) (roi : Q * Q * Q * Q)
    (ann : list (string * polygon)) (outside_value : Q) : result Img :=
  let '(x0, y0, x1, y1) := roi in
  let r := [(x0, y0); (x1, y1)] in
  _ <- load_global globs "vigra" ;;              (* vigra.VigraArray(...) *)
  let roi_mask := new_roi_mask ops img in
  res <- annot_loop img x0 y0 x1 y1 r ann roi_mask ;;
  match res with
  | inl img => Ok img
  | inr roi_mask =>
      let img := apply_mask ops img roi_mask in
      Ok (fill_outside ops img roi_mask outside_value)
  end.

End PolyAnnotInside.

End Operators.

(** Iterating an explorer: [list(sw)] (or a [for] loop over it) calls
    [next()] until it raises [StopIteration], which ends the loop; any other
    exception propagates.  [fuel] bounds the number of calls. *)
Module TileExplorerIter.
Import TileExplorer.

Fixpoint drain (fuel : nat) (st : MRISlidingWindow) : result (list window) * MRISlidingWindow :=
  match fuel with
  | O => (Ok [], st)
  | S f =>
      match next st with
      | (Ok w, st') =>
          let '(r, st'') := drain f st' in
          (ws <- r ;; Ok (w :: ws), st'')
      | (Raise StopIteration, st') => (Ok [], st')
      | (Raise e, st') => (Raise e, st')
      end
  end.

(** the window [here()] computes for the top-left corner [(x0, y0)] *)
Definition corner_window (st : MRISlidingWindow) (c : Z * Z) : window :=
  let '(x0, y0) := c in
  (x0, y0, Z.min (x0 + fst (w_size st)) (snd (image_shape st)),
   Z.min (y0 + snd (w_size st)) (fst (image_shape st))).

End TileExplorerIter.

(** [add_region(mask, poly_line)] of [qpath2.masks]: [mask[r, c] = 1] with
    numpy's integer-array indexing, which checks every index against the
    axis length (a negative one counts from the end) and raises
    [IndexError] before assigning anything.  The mask is updated in place
    and returned; the model returns the updated array. *)
Module MaskOps.
Import ApplyMask.

(** [a.shape] of a 2-D array *)
Definition shape_of (m : list (list Z)) : Z * Z :=
  (Z.of_nat (length m), match m with r :: _ => Z.of_nat (length r) | [] => 0 end).

(** an integer index [i] on an axis of length [n] *)
Definition py_index (n i : Z) : option nat :=
  if (0 <=? i) && (i <? n) then Some (Z.to_nat i)
  else if (- n <=? i) && (i <? 0) then Some (Z.to_nat (i + n))
  else None.

Fixpoint update_nth {A} (n : nat) (f : A -> A) (l : list A) : list A :=
  match l, n with
  | [], _ => []
  | x :: l', O => f x :: l'
  | x :: l', S n' => x :: update_nth n' f l'
  end.

(** [m[i, j] = v] *)
Definition set2 (m : list (list Z)) (i j : nat) (v : Z) : list (list Z) :=
  update_nth i (update_nth j (fun _ => v)) m.

Fixpoint resolve_all (nr nc : Z) (ps : list (Z * Z)) : option (list (nat * nat)) :=
  match ps with
  | [] => Some []
  | (i, j) :: ps' =>
      match py_index nr i, py_index nc j, resolve_all nr nc ps' with
      | Some a, Some b, Some l => Some ((a, b) :: l)
      | _, _, _ => None
      end
  end.

(** [m[rs, cs] = v] *)
Definition fancy_set (m : list (list Z)) (rs cs : list Z) (v : Z) : result (list (list Z)) :=
  let '(nr, nc) := shape_of m in
  match resolve_all nr nc (combine rs cs) with
  | Some idx => Ok (fold_left (fun m '(a, b) => set2 m a b v) idx m)
  | None => Raise IndexError
  end.

Definition add_region (mask : ndarray2) (poly_line : polygon) : result ndarray2 :=
  cr <- Masks.masked_points poly_line (shape_of (data mask)) ;;
  let '(c, r) := cr in
  m <- fancy_set (data mask) r c 1 ;;
  Ok (mkArray2 (dt mask) m).

(** a rectangular 2-D array with rows of [cols] entries *)
Definition rectangular (m : list (list Z)) (cols : nat) : Prop :=
  Forall (fun row => length row = cols) m.

End MaskOps.

(** ** [duplicate] of the annotation classes: [qpath2.annot.core] *)
Module AnnotDup.
Import Annot.

(** [PointSet.duplicate]: [PointSet(self.xy, name=self.name)] *)
Definition pointset_duplicate (a : annotation) : result annotation :=
  pointset_init (XRows (xy a)) YNone (Some (name a)).


End AnnotDup.

(** ** Reading NDPA files: [qpath2.annot.tools.ndpa_read_single] and
    [qpath2.annot.tools.ndpa_read]

    The parsed XML root is the list of its children [ann]; [ann.find('title').text]
    is the title, [ann.find('annotation')] is [None] or an element whose
    [find('pointlist')] is [None] or the list of point elements, each seen
    as the texts of its [x] and [y] children. [long(text)] is a parameter
    of the readers; [long_dec] below is Python's [long] on decimal texts. *)
Module NdpaRead.

Record ndpa_ann : Type := mkNdpaAnn {
  title : string;
  annotation : option (option (list (string * string)))
}.

(** a Python dict with string keys, in insertion order *)
Definition dict (V : Type) : Type := list (string * V).

Fixpoint dict_get {V} (k : string) (d : dict V) : option V :=
  match d with
  | [] => None
  | (k', v) :: d' => if String.eqb k k' then Some v else dict_get k d'
  end.

(** [d[k] = v]: an existing key keeps its place *)
Fixpoint dict_set {V} (k : string) (v : V) (d : dict V) : dict V :=
  match d with
  | [] => [(k, v)]
  | (k', v') :: d' => if String.eqb k k' then (k, v) :: d' else (k', v') :: dict_set k v d'
  end.

Section Readers.
Variable long_of : string -> result Z.

(** [[(long(pts.find('x').text), long(pts.find('y').text)) for pts in list(p)]] *)
Fixpoint read_points (pts : list (string * string)) : result (list (Z * Z)) :=
  match pts with
  | [] => Ok []
  | (tx, ty) :: pts' =>
      x <- long_of tx ;; y <- long_of ty ;; rest <- read_points pts' ;; Ok ((x, y) :: rest)
  end.

(** the loop of [ndpa_read_single] *)
Fixpoint single_loop (ann_title : string) (anns : list ndpa_ann)
    (xy_coords : list (list (Z * Z))) : result (list (list (Z * Z))) :=
  match anns with
  | [] => Ok xy_coords
  | ann :: anns' =>
      if negb (String.eqb (title ann) ann_title) then single_loop ann_title anns' xy_coords
      else match annotation ann with
           | None | Some None => single_loop ann_title anns' xy_coords
           | Some (Some p) =>
               pts <- read_points p ;; single_loop ann_title anns' (xy_coords ++ [pts])
           end
  end.

Definition ndpa_read_single (root : list ndpa_ann) (ann_title : string)
    : result (option (list (list (Z * Z)))) :=
  xy_coords <- single_loop ann_title root [] ;;
  match xy_coords with [] => Ok None | _ => Ok (Some xy_coords) end.

(** the loop of [ndpa_read] *)
Fixpoint read_loop (anns : list ndpa_ann) (annot : dict (list (list (Z * Z))))
    : result (dict (list (list (Z * Z)))) :=
  match anns with
  | [] => Ok annot
  | ann :: anns' =>
      let name := title ann in
      let annot := dict_set name [] annot in
      match annotation ann with
      | None | Some None => read_loop anns' annot
      | Some (Some p) =>
          pts <- read_points p ;;
          (* [annot[name].append(...)]: the key was just set *)
          let cur := match dict_get name annot with Some v => v | None => [] end in
          read_loop anns' (dict_set name (cur ++ [pts]) annot)
      end
  end.

Definition ndpa_read (root : list ndpa_ann) : result (dict (list (list (Z * Z)))) :=
  read_loop root [].

(** the components one annotation element contributes: none without an
    [annotation] or [pointlist] child, else its point list *)
Definition components (ann : ndpa_ann) : result (list (list (Z * Z))) :=
  match annotation ann with
  | None | Some None => Ok []
  | Some (Some p) => pts <- read_points p ;; Ok [pts]
  end.

End Readers.

(** Python 2's [long(s)] on a text: surrounding white space is ignored, an
    optional sign is followed by one or more decimal digits; any other text
    raises [ValueError]. *)
Definition is_space (c : Ascii.ascii) : bool :=
  match Ascii.nat_of_ascii c with 9 | 10 | 11 | 12 | 13 | 32 => true | _ => false end%nat.

Fixpoint drop_space (l : list Ascii.ascii) : list Ascii.ascii :=
  match l with
  | c :: l' => if is_space c then drop_space l' else l
  | [] => []
  end.

Fixpoint digits_value (acc : Z) (l : list Ascii.ascii) : option Z :=
  match l with
  | [] => Some acc
  | c :: l' =>
      let n := Z.of_nat (Ascii.nat_of_ascii c) - 48 in
      if (0 <=? n) && (n <=? 9) then digits_value (10 * acc + n) l' else None
  end.

Definition long_dec (s : string) : result Z :=
  let l := drop_space (rev (drop_space (rev (list_ascii_of_string s)))) in
  let '(sign, ds) :=
    match l with
    | c :: l' => if (Ascii.nat_of_ascii c =? 45)%nat then (-1, l')      (* '-' *)
                 else if (Ascii.nat_of_ascii c =? 43)%nat then (1, l')  (* '+' *)
                 else (1, l)
    | [] => (1, [])
    end in
  match ds with
  | [] => Raise (ValueError "invalid literal for long() with base 10")
  | _ => match digits_value 0 ds with
         | Some v => Ok (sign * v)
         | None => Raise (ValueError "invalid literal for long() with base 10")
         end
  end.

End NdpaRead.

(** ** Reading ASAP files: [qpath2.annot.tools.asap_read]

    The parsed XML root: its tag, the children names of each
    [AnnotationGroups] element, and the children of each [Annotations]
    element. Every group has a [Name] and every annotation a [Type] and a
    [Coordinates] child; [ann.get("Name")] and [ann.get("PartOfGroup")] may
    be absent. [int(text)] and [np.float64(text)] are parameters. *)
Module AsapRead.
Import Annot MaskOps.








Section Reader.
Variable int_of : string -> result Z.
Variable float_of : string -> result Q.
Variable asap_file : string.






End Reader.

End AsapRead.

(** * Proofs *)

Module TileExplorerFacts.
Import TileExplorer TileExplorerSpec.

Lemma ceil_div_succ (a s : Z) :
  0 <= a -> 0 < s -> ceil_div (a + 1) s = a / s + 1.
Proof.
  intros Ha Hs. unfold ceil_div.
  assert (E : - (a + 1) / s = - (a / s) - 1).
  { symmetry. apply Z.div_unique with (r := s - a mod s - 1).
    - left. pose proof (Z.mod_pos_bound a s Hs). lia.
    - pose proof (Z.div_mod a s ltac:(lia)). lia. }
  rewrite E. lia.
Qed.

Lemma arange_stepped (lo hi s : Z) :
  lo <= hi -> 0 < s -> arange lo (hi + 1) s = Ok (stepped lo hi s).
Proof.
  intros Hle Hs. unfold arange, stepped.
  destruct (Z.eqb_spec s 0) as [E|_]; [lia|].
  replace (hi + 1 - lo) with (hi - lo + 1) by lia.
  rewrite ceil_div_succ by lia.
  assert (0 <= (hi - lo) / s) by (apply Z.div_pos; lia).
  rewrite Z.max_r by lia. reflexivity.
Qed.

Lemma combine_app {A B} (l1 l2 : list A) (m1 m2 : list B) :
  length l1 = length m1 -> combine (l1 ++ l2) (m1 ++ m2) = combine l1 m1 ++ combine l2 m2.
Proof.
  revert m1. induction l1 as [|a l1 IH]; intros [|b m1] H; simpl in *; try discriminate.
  - reflexivity.
  - rewrite IH by lia. reflexivity.
Qed.

Lemma meshgrid_row_major (xs ys : list Z) :
  let '(x, y) := meshgrid xs ys in
  combine (reshape_flat x) (reshape_flat y) = row_major xs ys.
Proof.
  unfold meshgrid, reshape_flat, row_major.
  induction ys as [|y ys IH]; simpl; [reflexivity|].
  rewrite combine_app by (rewrite length_map; reflexivity).
  rewrite IH. f_equal.
  clear IH. induction xs as [|x xs IHx]; simpl; [reflexivity|]. now rewrite IHx.
Qed.

Lemma length_row_major (xs ys : list Z) :
  length (row_major xs ys) = (length ys * length xs)%nat.
Proof.
  unfold row_major. induction ys as [|y ys IH]; simpl; [reflexivity|].
  rewrite length_app, length_map, IH. reflexivity.
Qed.

Lemma length_stepped (lo hi s : Z) :
  lo <= hi -> 0 < s -> Z.of_nat (length (stepped lo hi s)) = (hi - lo) / s + 1.
Proof.
  intros Hle Hs. unfold stepped. rewrite length_map, length_seq.
  assert (0 <= (hi - lo) / s) by (apply Z.div_pos; lia). lia.
Qed.

Lemma in_stepped (lo hi s x : Z) :
  0 < s ->
  In x (stepped lo hi s) <-> (exists i, 0 <= i /\ x = lo + i * s) /\ lo <= x <= hi.
Proof.
  intros Hs. unfold stepped. rewrite in_map_iff. split.
  - intros [i [<- Hi]]. apply in_seq in Hi. destruct Hi as [_ Hi]. simpl in Hi.
    split; [exists (Z.of_nat i); lia|].
    split; [nia|].
    destruct (Z.le_gt_cases 0 ((hi - lo) / s + 1)) as [Hp|Hn]; [|lia].
    assert (Z.of_nat i <= (hi - lo) / s) by lia.
    assert (Z.of_nat i * s <= (hi - lo) / s * s) by nia.
    pose proof (Z.mul_div_le (hi - lo) s Hs). nia.
  - intros [[i [Hi ->]] Hb]. exists (Z.to_nat i). split; [lia|].
    apply in_seq. split; [lia|]. simpl.
    assert (i <= (hi - lo) / s) by (apply Z.div_le_lower_bound; nia).
    lia.
Qed.

End TileExplorerFacts.

Module TileExplorerClaims.
Import TileExplorer TileExplorerSpec TileExplorerFacts.

(** C3 (amended): for an explorer built over an image of width [W] and
    height [H] with window [(w, h)], start [(0, 0)] and steps [sx, sy >= 1],
    the precomputed top-left corners are the stepped x-range [[0, W-w]] and
    the stepped y-range [[0, H-h]] combined in row-major order (y outer, x
    inner), and [total_steps()] is [(floor((W-w)/sx) + 1) * (floor((H-h)/sy) + 1)]. *)
Theorem init_corners_total_steps (H W w h sx sy : Z) (st : MRISlidingWindow) :
  1 <= sx -> 1 <= sy -> init (H, W) (w, h) (0, 0) (sx, sy) = Ok st ->
  top_left_corners st = row_major (stepped 0 (W - w) sx) (stepped 0 (H - h) sy) /\
  total_steps st = ((W - w) / sx + 1) * ((H - h) / sy + 1).
Proof.
  intros Hsx Hsy Hinit. unfold init in Hinit. simpl in Hinit.
  destruct ((w <? 2) || (h <? 2)) eqn:Ew; [discriminate|].
  destruct ((W <? w) || (H <? h)) eqn:Ef; [discriminate|].
  apply orb_false_iff in Ef as [E1 E2]. apply Z.ltb_ge in E1, E2.
  rewrite (arange_stepped 0 (W - w) sx) in Hinit by lia.
  rewrite (arange_stepped 0 (H - h) sy) in Hinit by lia.
  simpl in Hinit.
  pose proof (meshgrid_row_major (stepped 0 (W - w) sx) (stepped 0 (H - h) sy)) as M.
  unfold meshgrid in *. injection Hinit as <-. simpl. rewrite M.
  split; [reflexivity|].
  unfold total_steps; simpl. rewrite length_row_major, Nat2Z.inj_mul.
  rewrite !length_stepped by lia. rewrite !Z.sub_0_r. ring.
Qed.

Lemma init_corners_total_steps_witness :
  exists st, init (4, 5) (2, 2) (0, 0) (2, 1) = Ok st /\
  top_left_corners st = row_major (stepped 0 3 2) (stepped 0 2 1) /\
  total_steps st = 6.
Proof.
  eexists. split; [reflexivity|].
  apply (init_corners_total_steps 4 5 2 2 2 1); [lia | lia | reflexivity].
Defined.

(** C3 counterexample: image 2 rows x 3 columns, window 2 x 2, step (2, 1):
    the explorer has a single position, while the spec's formula
    [ceil((W-w)/sx + 1) * ceil((H-h)/sy + 1)] gives 2. *)
Lemma init_total_steps_spec_formula_cex :
  exists st, init (2, 3) (2, 2) (0, 0) (2, 1) = Ok st /\
  total_steps st = 1 /\ spec_total_steps 3 2 2 2 2 1 = 2.
Proof. eexists. split; [reflexivity|]. split; reflexivity. Qed.

(** C5: in every reachable state [0 <= k <= total_steps()], [next()]
    returns the window at [k] and moves to [k + 1] while [k < total], and
    raises [StopIteration] (state unchanged) once [k] reaches [total];
    [prev()] moves to [k - 1] and returns the window there when [k >= 1],
    and raises [StopIteration] when [k = 0]; [reset()] sets [k] to 0;
    [here()] raises [Error("Position outside bounds")] exactly when [k] is
    outside [[0, total)], an exception distinct from [StopIteration]. *)
Theorem explorer_protocol (st : MRISlidingWindow) :
  0 <= k st <= total_steps st ->
  (k st < total_steps st ->
     exists win, here st = Ok win /\ next st = (Ok win, set_k st (k st + 1))) /\
  (k st = total_steps st -> next st = (Raise StopIteration, st)) /\
  (1 <= k st ->
     exists win, here (set_k st (k st - 1)) = Ok win /\
                 prev st = (Ok win, set_k st (k st - 1))) /\
  (k st = 0 -> prev st = (Raise StopIteration, st)) /\
  (k (reset st) = 0 /\ reset st = set_k st 0) /\
  (forall st', here st' = Raise (CoreError "Position outside bounds") <->
               ~ (0 <= k st' < total_steps st')) /\
  (forall msg, StopIteration <> CoreError msg).
Proof.
  intros [H0 Htot].
  assert (Hhere : forall s, 0 <= k s < total_steps s -> exists win, here s = Ok win).
  { intros s [Ha Hb]. unfold here.
    rewrite (proj2 (Z.leb_le _ _) Ha), (proj2 (Z.ltb_lt _ _) Hb). simpl.
    destruct (nth _ _ _) as [x0 y0]. eexists; reflexivity. }
  repeat split.
  - intros Hlt. destruct (Hhere st) as [win Hw]; [lia|].
    exists win. split; [exact Hw|]. unfold next.
    rewrite (proj2 (Z.ltb_lt _ _) Hlt), Hw. reflexivity.
  - intros Heq. unfold next. rewrite Heq, Z.ltb_irrefl. reflexivity.
  - intros H1. destruct (Hhere (set_k st (k st - 1))) as [win Hw].
    { unfold set_k, total_steps in *; simpl; lia. }
    exists win. split; [exact Hw|]. unfold prev.
    rewrite (proj2 (Z.leb_le _ _) H1), Hw. reflexivity.
  - intros Hk. unfold prev. rewrite Hk. reflexivity.
  - intros Hr. unfold here in Hr.
    destruct ((0 <=? k st') && (k st' <? total_steps st')) eqn:E.
    + destruct (nth _ _ _); discriminate.
    + apply andb_false_iff in E as [E|E]; [apply Z.leb_gt in E | apply Z.ltb_ge in E]; lia.
  - intros Hn. unfold here.
    destruct ((0 <=? k st') && (k st' <? total_steps st')) eqn:E; [|reflexivity].
    apply andb_true_iff in E as [E1 E2]. apply Z.leb_le in E1. apply Z.ltb_lt in E2.
    exfalso. lia.
  - discriminate.
Qed.

(** An explorer over a 3 x 4 image with a 2 x 2 window, moved forward once. *)
Lemma explorer_protocol_witness :
  exists st, init (3, 4) (2, 2) (0, 0) (1, 1) = Ok st /\
  next st = (Ok (0, 0, 2, 2), set_k st 1) /\
  prev (set_k st 1) = (Ok (0, 0, 2, 2), set_k st 0).
Proof.
  eexists. split; [reflexivity|].
  pose proof (explorer_protocol (set_k (mkSW (3, 4) (2, 2) (0, 0) (1, 1) 0
                [(0, 0); (1, 0); (2, 0); (0, 1); (1, 1); (2, 1)]) 1)) as P.
  destruct P as [_ [_ [P _]]]; [vm_compute; split; discriminate|].
  destruct (P ltac:(vm_compute; discriminate)) as [win [Hw Hp]].
  vm_compute in Hw. injection Hw as <-.
  split; [reflexivity|]. exact Hp.
Defined.

End TileExplorerClaims.
Module CompgeomClaims.
Import Compgeom GeometryModel.

(** C1 (code bug): on a convex [P], [rect_inside_polygon] consults the
    point classification of the two diagonal corners [r0] and [r1] only:
    whatever the native kernel, both reported INSIDE (1) make it answer
    true. The other two corners are never tested, and with the exact
    geometry model there is a convex hexagon containing [r0] and [r1]
    while the rectangle's corner (x0, y1) is OUTSIDE, so the answer true
    does not mean the rectangle lies completely inside. On a non-convex [P]
    with a single intersection component [c], the answer is the native
    equality of [P] and [c], not of the rectangle and [c]. *)
Theorem rect_inside_polygon_diagonal_only :
  (forall `{NativeGeometry} (r0 r1 : point) (P : polygon),
     polygon_is_convex P = true -> point_wrt_polygon [r0; r1] P = Ok [1; 1]%Z ->
     rect_inside_polygon r0 r1 P = Ok true) /\
  (forall `{NativeGeometry} (r0 r1 : point) (P c : polygon),
     polygon_is_convex P = false ->
     simple_polygon_intersection P (rect_polygon r0 r1) = Ok [c] ->
     rect_inside_polygon r0 r1 P = polygon_equality P c) /\
  (exists (P : polygon) (r0 r1 c : point),
     @polygon_is_convex convex_kernel P = true /\
     @rect_inside_polygon convex_kernel r0 r1 P = Ok true /\
     In c (rect_polygon r0 r1) /\ classify_point c P = (-1)%Z).
Proof.
  split; [|split].
  - intros G r0 r1 P Hc Hr. unfold rect_inside_polygon. rewrite Hc, Hr. reflexivity.
  - intros G r0 r1 P c Hc Hi. unfold rect_inside_polygon. rewrite Hc, Hi. reflexivity.
  - exists [(0,0); (2,0); (10,8); (10,10); (8,10); (0,2)]%Q, (1,1)%Q, (9,9)%Q, (1,9)%Q.
    vm_compute. repeat split; auto.
Qed.

Definition strip : polygon :=
  [(0,0); (2,0); (10,8); (10,10); (8,10); (0,2)]%Q.

(** C1 counterexample: the convex hexagon [strip] around the diagonal of
    [[0,10] x [0,10]] contains the corners (1,1) and (9,9), so
    [rect_inside_polygon] answers true, yet the rectangle's corner (1,9)
    lies OUTSIDE the polygon. *)
Lemma rect_inside_polygon_convex_corner_cex :
  polygon_is_convex strip = true /\
  rect_inside_polygon (1,1)%Q (9,9)%Q strip = Ok true /\
  In (1,9)%Q (rect_polygon (1,1)%Q (9,9)%Q) /\
  classify_point (1,9)%Q strip = (-1)%Z.
Proof. vm_compute. repeat split; auto. Qed.

Section StatusCodes.
Local Open Scope Z_scope.
Context `{NativeGeometry}.

Lemma length_cumsum (acc : nat) (l : list nat) : length (cumsum acc l) = length l.
Proof. revert acc. induction l as [|x l IH]; intros acc; simpl; [reflexivity|]. now rewrite IH. Qed.

Lemma length_removelast' {A} (l : list A) : length (removelast l) = (length l - 1)%nat.
Proof. induction l as [|a [|b l] IH]; simpl in *; [reflexivity|reflexivity|]. rewrite IH. lia. Qed.

Lemma length_split_components (rx ry : list Q) (rn : list nat) :
  rn <> [] -> length (split_components rx ry rn) = length rn.
Proof.
  intros Hne. unfold split_components. rewrite length_map, length_combine. simpl.
  rewrite length_removelast', length_cumsum.
  destruct rn; [congruence|]. simpl. lia.
Qed.

(** C7: [simple_polygon_intersection] maps the native status [n]: 0 gives
    an empty result, [n > 0] gives exactly [n] components (the native
    routine reporting one vertex count per component), -1 and -2 raise the
    size-mismatch error, -3 the non-simple-polygon error and -4 the
    unbounded-intersection error. *)
Theorem simple_polygon_intersection_status (P Qp : polygon) (n : Z)
    (rx ry : list Q) (rn : list nat) :
  simple_polygon_intersection_ (xs_of P) (ys_of P) (xs_of Qp) (ys_of Qp) = (n, (rx, ry, rn)) ->
  intersection_output_contract n rn ->
  (n = 0 -> simple_polygon_intersection P Qp = Ok []) /\
  (0 < n -> exists comps, simple_polygon_intersection P Qp = Ok comps /\
                          length comps = Z.to_nat n) /\
  (n = -1 \/ n = -2 ->
     simple_polygon_intersection P Qp = Raise (CoreError "Size mismatch in P or Q")) /\
  (n = -3 -> simple_polygon_intersection P Qp = Raise (CoreError "The polygons are not simple")) /\
  (n = -4 -> simple_polygon_intersection P Qp = Raise (CoreError "The intersection is not bounded")).
Proof.
  intros Hn Hc. unfold simple_polygon_intersection. rewrite Hn.
  repeat split.
  - intros ->. reflexivity.
  - intros Hpos. specialize (Hc Hpos).
    rewrite (proj2 (Z.eqb_neq n 0)) by lia.
    rewrite (proj2 (Z.eqb_neq n (-1))) by lia.
    rewrite (proj2 (Z.eqb_neq n (-2))) by lia.
    rewrite (proj2 (Z.eqb_neq n (-3))) by lia.
    rewrite (proj2 (Z.eqb_neq n (-4))) by lia. simpl.
    destruct (Z.ltb_spec 1 n) as [Hgt|Hle].
    + eexists. split; [reflexivity|].
      rewrite length_split_components; [exact Hc|].
      intros ->. simpl in Hc. lia.
    + eexists. split; [reflexivity|]. simpl. lia.
  - intros [-> | ->]; reflexivity.
  - intros ->. reflexivity.
  - intros ->. reflexivity.
Qed.

End StatusCodes.

(** A kernel replaying one native answer: status 2, with a quadrilateral
    and a triangle as the two components. *)
#[local] Instance recorded_kernel : NativeGeometry := {|
  polygon_equality_ := fun _ _ _ _ => 1%Z;
  simple_polygon_intersection_ := fun _ _ _ _ =>
    (2%Z, ([5; 10; 10; 5; 7; 8; 8]%Q, [5; 5; 10; 10; 7; 7; 8]%Q, [4; 3]%nat));
  point_wrt_polygon_ := GeometryModel.model_point_wrt;
  cgal_is_convex := GeometryModel.model_is_convex
|}.

Lemma simple_polygon_intersection_status_witness :
  exists comps, @simple_polygon_intersection recorded_kernel [] [] = Ok comps /\
                length comps = 2%nat.
Proof.
  exact (proj1 (proj2 (@simple_polygon_intersection_status recorded_kernel [] [] 2%Z
           [5; 10; 10; 5; 7; 8; 8]%Q [5; 5; 10; 10; 7; 7; 8]%Q [4; 3]%nat
           eq_refl ltac:(intros _; reflexivity))) ltac:(lia)).
Defined.

End CompgeomClaims.
Module MasksFacts.
Import Masks.

Lemma combine_xs_ys (P : polygon) : combine (xs_of P) (ys_of P) = P.
Proof. induction P as [|[x y] P IH]; simpl; [reflexivity|]. now rewrite IH. Qed.

Lemma xs_ys_app (P : polygon) (p : point) :
  xs_of (P ++ [p]) = xs_of P ++ [fst p] /\ ys_of (P ++ [p]) = ys_of P ++ [snd p].
Proof. unfold xs_of, ys_of. rewrite !map_app. split; reflexivity. Qed.

Lemma last_cons_default {A} (a d : A) (l : list A) : List.last (a :: l) d = List.last l a.
Proof.
  revert a d. induction l as [|b l IH]; intros a d; [reflexivity|].
  change (List.last (a :: b :: l) d) with (List.last (b :: l) d).
  rewrite !IH. reflexivity.
Qed.

Lemma fold_qmin_le (l : list Q) (m : Q) : (fold_left Skimage.qmin l m <= m)%Q.
Proof.
  revert m. induction l as [|x l IH]; intros m; simpl; [apply Qle_refl|].
  eapply Qle_trans; [apply IH|]. unfold Skimage.qmin.
  destruct (Qle_bool m x) eqn:E; [apply Qle_refl|].
  apply Qlt_le_weak, Qnot_le_lt. intros Hle. apply Qle_bool_iff in Hle. congruence.
Qed.

Lemma fold_qmax_ge (l : list Q) (m : Q) : (m <= fold_left Skimage.qmax l m)%Q.
Proof.
  revert m. induction l as [|x l IH]; intros m; simpl; [apply Qle_refl|].
  eapply Qle_trans; [|apply IH]. unfold Skimage.qmax.
  destruct (Qle_bool x m) eqn:E; [apply Qle_refl|].
  apply Qlt_le_weak, Qnot_le_lt. intros Hle. apply Qle_bool_iff in Hle. congruence.
Qed.

Lemma np_min_snoc_head (a : Q) (l : list Q) : Skimage.np_min ((a :: l) ++ [a]) = Skimage.np_min (a :: l).
Proof.
  simpl. rewrite fold_left_app. simpl. unfold Skimage.qmin at 1.
  rewrite (proj2 (Qle_bool_iff _ _) (fold_qmin_le l a)). reflexivity.
Qed.

Lemma np_max_snoc_head (a : Q) (l : list Q) : Skimage.np_max ((a :: l) ++ [a]) = Skimage.np_max (a :: l).
Proof.
  simpl. rewrite fold_left_app. simpl. unfold Skimage.qmax at 1.
  rewrite (proj2 (Qle_bool_iff _ _) (fold_qmax_ge l a)). reflexivity.
Qed.

Lemma pip_loop_negb (pj : Q * Q) (l : list (Q * Q)) (x y : Q) (c : bool) :
  Skimage.pip_loop pj l x y (negb c) = negb (Skimage.pip_loop pj l x y c).
Proof.
  revert pj c. induction l as [|pi l IH]; intros pj c; simpl; [reflexivity|].
  destruct (Skimage.edge_toggle pi pj x y); apply IH.
Qed.

Lemma pip_loop_snoc (pj q : Q * Q) (l : list (Q * Q)) (x y : Q) (c : bool) :
  Skimage.pip_loop pj (l ++ [q]) x y c =
  if Skimage.edge_toggle q (List.last l pj) x y then negb (Skimage.pip_loop pj l x y c)
  else Skimage.pip_loop pj l x y c.
Proof.
  revert pj c. induction l as [|a l IH]; intros pj c; simpl; [reflexivity|].
  rewrite IH. rewrite <- last_cons_default with (d := pj). reflexivity.
Qed.

Lemma edge_toggle_degenerate (p : Q * Q) (x y : Q) : Skimage.edge_toggle p p x y = false.
Proof.
  destruct p as [xi yi]. unfold Skimage.edge_toggle, Skimage.Qltb.
  destruct (Qle_bool yi y); reflexivity.
Qed.

Lemma point_in_polygon_snoc_head (P : polygon) (p0 : point) (rest : list point) (x y : Q) :
  P = p0 :: rest ->
  Skimage.point_in_polygon (xs_of (P ++ [p0])) (ys_of (P ++ [p0])) x y =
  Skimage.point_in_polygon (xs_of P) (ys_of P) x y.
Proof.
  intros ->. unfold Skimage.point_in_polygon. rewrite !combine_xs_ys.
  unfold point in *.
  change ((p0 :: rest) ++ [p0]) with (p0 :: (rest ++ [p0])). cbv beta iota.
  assert (L : @List.last (Q * Q) (p0 :: rest ++ [p0]) p0 = p0)
    by (rewrite app_comm_cons; apply last_last).
  rewrite L. cbn [Skimage.pip_loop].
  rewrite edge_toggle_degenerate, pip_loop_snoc, last_cons_default.
  destruct (Skimage.edge_toggle p0 (List.last rest p0) x y); [|reflexivity].
  rewrite pip_loop_negb. reflexivity.
Qed.

Lemma polygon_ext (r r' c c' : list Q) (shape : Z * Z) :
  Skimage.np_min r = Skimage.np_min r' -> Skimage.np_max r = Skimage.np_max r' ->
  Skimage.np_min c = Skimage.np_min c' -> Skimage.np_max c = Skimage.np_max c' ->
  (forall x y, Skimage.point_in_polygon c r x y = Skimage.point_in_polygon c' r' x y) ->
  Skimage.polygon r c shape = Skimage.polygon r' c' shape.
Proof.
  intros E1 E2 E3 E4 Hp. unfold Skimage.polygon. rewrite E1, E2, E3, E4.
  destruct (Skimage.np_min r'), (Skimage.np_max r'), (Skimage.np_min c'), (Skimage.np_max c'); try reflexivity.
  simpl. f_equal.
  assert (F : forall l1 l2, flat_map (fun r_i => flat_map (fun c_i =>
                if Skimage.point_in_polygon c r (inject_Z c_i) (inject_Z r_i)
                then [(r_i, c_i)] else []) l2) l1 =
              flat_map (fun r_i => flat_map (fun c_i =>
                if Skimage.point_in_polygon c' r' (inject_Z c_i) (inject_Z r_i)
                then [(r_i, c_i)] else []) l2) l1).
  { intros l1 l2. apply flat_map_ext. intros r_i. apply flat_map_ext. intros c_i.
    now rewrite Hp. }
  now rewrite F.
Qed.

End MasksFacts.

Module MasksClaims.
Import Masks MasksFacts.

(** C4: for a vertex list [P] whose first and last vertices differ,
    [masked_points(P, shape)] returns the same pixels, in the same order,
    as [masked_points(P ++ [P[0]], shape)]. *)
Theorem masked_points_closing (P : polygon) (p0 : point) (rest : list point)
    (shape : Z * Z) :
  P = p0 :: rest ->
  ~ (fst p0 == fst (List.last P p0) /\ snd p0 == snd (List.last P p0))%Q ->
  masked_points P shape = masked_points (P ++ [p0]) shape.
Proof.
  intros HP _. subst P. unfold masked_points.
  change ((p0 :: rest) ++ [p0]) with (p0 :: (rest ++ [p0])). cbv beta iota zeta.
  change (p0 :: (rest ++ [p0])) with ((p0 :: rest) ++ [p0]).
  rewrite (polygon_ext (ys_of ((p0 :: rest) ++ [p0])) (ys_of (p0 :: rest))
                       (xs_of ((p0 :: rest) ++ [p0])) (xs_of (p0 :: rest))).
  - reflexivity.
  - destruct (xs_ys_app (p0 :: rest) p0) as [_ ->].
    exact (np_min_snoc_head (snd p0) (ys_of rest)).
  - destruct (xs_ys_app (p0 :: rest) p0) as [_ ->].
    exact (np_max_snoc_head (snd p0) (ys_of rest)).
  - destruct (xs_ys_app (p0 :: rest) p0) as [-> _].
    exact (np_min_snoc_head (fst p0) (xs_of rest)).
  - destruct (xs_ys_app (p0 :: rest) p0) as [-> _].
    exact (np_max_snoc_head (fst p0) (xs_of rest)).
  - intros x y. apply point_in_polygon_snoc_head with (rest := rest). reflexivity.
Qed.

(** The open square of side 4 on an 8 x 8 grid. *)
Lemma masked_points_closing_witness :
  masked_points [(0,0); (4,0); (4,4); (0,4)]%Q (8, 8) =
  masked_points ([(0,0); (4,0); (4,4); (0,4)] ++ [(0,0)])%Q (8, 8).
Proof.
  apply (masked_points_closing [(0,0); (4,0); (4,4); (0,4)]%Q (0,0)%Q
           [(4,0); (4,4); (0,4)]%Q (8, 8)); [reflexivity|].
  simpl. intros [_ E]. discriminate E.
Defined.

End MasksClaims.



Module AnnotFacts.
Import Annot.







End AnnotFacts.

Module AnnotClaims.
Import Annot AnnotFacts.


End AnnotClaims.

Module NdpaFacts.
Import Ndpa.

Lemma fdiv_ok (a b : Q) : ~ b == 0 -> fdiv a b = Ok (a / b)%Q.
Proof.
  intros Hb. unfold fdiv. destruct (Qeq_bool b 0) eqn:E; [|reflexivity].
  apply Qeq_bool_iff in E. contradiction.
Qed.

Lemma mpp_scaled_nonzero (m : Q) : ~ m == 0 -> ~ (1000 * m == 0)%Q.
Proof.
  intros Hm E. apply Hm. apply Qmult_integral in E as [E|E]; [discriminate E | exact E].
Qed.

Lemma convert_all_map (w : wsi_params) (level : Z) (pts : list (Q * Q)) :
  ~ x_mpp w == 0 -> ~ y_mpp w == 0 ->
  convert_all w (Qpower 2 level) pts = Ok (map (pixel_of w level) pts).
Proof.
  intros Hx Hy.
  assert (Hd : ~ Qpower 2 level == 0) by (apply Qpower_not_0; discriminate).
  induction pts as [|[x y] pts IH]; [reflexivity|].
  simpl convert_all. unfold convert_point.
  rewrite (fdiv_ok _ _ (mpp_scaled_nonzero _ Hx)), (fdiv_ok _ _ (mpp_scaled_nonzero _ Hy)).
  simpl bind. rewrite !fdiv_ok by exact Hd. simpl bind. rewrite IH. reflexivity.
Qed.

End NdpaFacts.

Module NdpaClaims.
Import Ndpa NdpaFacts.





End NdpaClaims.

Module OperatorsClaims.
Import Operators.

(** C8 (code bug): operators.py never imports [vigra], so
    [poly_annot_inside] raises [NameError] on the name [vigra] at line 107,
    for every image, ROI, annotation set and outside value, before any
    polygon is tested: it never returns the tile, even when a polygon
    contains the ROI. With [vigra] bound, the intended behaviour holds: a
    first polygon for which [rect_inside_polygon] answers true makes it
    return the tile unchanged. *)
Theorem poly_annot_inside_name_error :
  (forall (G : NativeGeometry) Img Mask (ops : vigra_ops Img Mask) img roi ann ov,
     poly_annot_inside ops operators_globals img roi ann ov = Raise (NameError "vigra")) /\
  (forall (G : NativeGeometry) Img Mask (ops : vigra_ops Img Mask) img x0 y0 x1 y1 nm P ann ov,
     Compgeom.rect_inside_polygon (x0, y0) (x1, y1) P = Ok true ->
     poly_annot_inside ops ("vigra"%string :: operators_globals) img (x0, y0, x1, y1)
       ((nm, P) :: ann) ov = Ok img).
Proof.
  split.
  - intros G Img Mask ops img [[[x0 y0] x1] y1] ann ov. reflexivity.
  - intros G Img Mask ops img x0 y0 x1 y1 nm P ann ov Hin.
    unfold poly_annot_inside. cbn [load_global existsb String.eqb bind].
    simpl annot_loop. rewrite Hin. reflexivity.
Qed.

(** The spec's scenario: ROI (0,0,10,10) inside one convex polygon. *)
Lemma poly_annot_inside_scenario_cex :
  @poly_annot_inside convex_kernel unit unit (mkVigraOps unit unit (fun _ => tt)
      (fun _ _ => tt) (fun _ _ => tt) (fun _ _ _ => tt))
    operators_globals tt (0, 0, 10, 10)%Q
    [("tumor"%string, [(-1, -1); (11, -1); (11, 11); (-1, 11)]%Q)] 0
  = Raise (NameError "vigra").
Proof. vm_compute. reflexivity. Qed.

End OperatorsClaims.

Module TileExplorerExtraFacts.
Import TileExplorer TileExplorerSpec TileExplorerFacts TileExplorerIter.

Lemma in_row_major (xs ys : list Z) (x y : Z) :
  In (x, y) (row_major xs ys) <-> In x xs /\ In y ys.
Proof.
  unfold row_major. rewrite in_flat_map. split.
  - intros [y' [Hy Hin]]. apply in_map_iff in Hin as [x' [E Hx]].
    injection E as -> ->. split; assumption.
  - intros [Hx Hy]. exists y. split; [exact Hy|]. apply in_map_iff. exists x. split; auto.
Qed.

Lemma set_k_k (st : MRISlidingWindow) : set_k st (k st) = st.
Proof. destruct st; reflexivity. Qed.

Lemma set_k_set_k (st : MRISlidingWindow) (a b : Z) : set_k (set_k st a) b = set_k st b.
Proof. reflexivity. Qed.

Lemma here_corner (st : MRISlidingWindow) :
  0 <= k st < total_steps st ->
  here st = Ok (corner_window st (nth (Z.to_nat (k st)) (top_left_corners st) (0, 0))).
Proof.
  intros [H0 H1]. unfold here.
  rewrite (proj2 (Z.leb_le _ _) H0), (proj2 (Z.ltb_lt _ _) H1). simpl.
  destruct (nth _ _ _) as [x0 y0]. reflexivity.
Qed.

Lemma skipn_nth_cons' {A} (n : nat) (l : list A) (d : A) :
  (n < length l)%nat -> skipn n l = nth n l d :: skipn (S n) l.
Proof.
  revert l. induction n as [|n IH]; intros [|a l] H; simpl in *; try lia; [reflexivity|].
  apply IH. lia.
Qed.

(** init succeeds with the corners of the two stepped ranges *)
Lemma init_corners (H W w h a b sx sy : Z) (st : MRISlidingWindow) :
  1 <= sx -> 1 <= sy -> init (H, W) (w, h) (a, b) (sx, sy) = Ok st ->
  2 <= w /\ 2 <= h /\ a + w <= W /\ b + h <= H /\
  image_shape st = (H, W) /\ w_size st = (w, h) /\ k st = 0 /\
  top_left_corners st = row_major (stepped a (W - w) sx) (stepped b (H - h) sy).
Proof.
  intros Hsx Hsy Hinit. unfold init in Hinit. simpl in Hinit.
  destruct ((w <? 2) || (h <? 2)) eqn:Ew; [discriminate|].
  destruct ((W <? a + w) || (H <? b + h)) eqn:Ef; [discriminate|].
  apply orb_false_iff in Ew as [Ew1 Ew2]. apply Z.ltb_ge in Ew1, Ew2.
  apply orb_false_iff in Ef as [E1 E2]. apply Z.ltb_ge in E1, E2.
  rewrite (arange_stepped a (W - w) sx) in Hinit by lia.
  rewrite (arange_stepped b (H - h) sy) in Hinit by lia.
  simpl in Hinit.
  pose proof (meshgrid_row_major (stepped a (W - w) sx) (stepped b (H - h) sy)) as M.
  unfold meshgrid in *. injection Hinit as <-. simpl. rewrite M.
  repeat split; lia.
Qed.

Lemma ceil_div_neg_step (d s : Z) : 0 < d -> s < 0 -> ceil_div d s <= 0.
Proof.
  intros Hd Hs. unfold ceil_div.
  replace (- d / s) with (d / - s).
  - assert (0 <= d / - s) by (apply Z.div_pos; lia). lia.
  - rewrite <- (Z.div_opp_opp d (- s)) by lia. rewrite Z.opp_involutive. reflexivity.
Qed.

Lemma arange_neg_step (start stop step : Z) :
  start < stop -> step < 0 -> arange start stop step = Ok [].
Proof.
  intros Hlt Hs. unfold arange.
  destruct (Z.eqb_spec step 0) as [E|_]; [lia|].
  pose proof (ceil_div_neg_step (stop - start) step ltac:(lia) Hs).
  rewrite Z.max_l by lia. reflexivity.
Qed.

Lemma concat_map_nil {A B} (l : list B) : concat (map (fun _ => @nil A) l) = [].
Proof. induction l; simpl; auto. Qed.

End TileExplorerExtraFacts.

Module TileExplorerExtras.
Import TileExplorer TileExplorerSpec TileExplorerFacts TileExplorerIter TileExplorerExtraFacts.

(** Every window of an explorer built with steps of at least 1 lies in the
    image: its top-left corner is at or after the start and the window
    keeps the requested width and height (the clipping [min] in [here()]
    never applies). *)
Theorem init_windows_inside_image (H W w h a b sx sy : Z) (st : MRISlidingWindow) :
  1 <= sx -> 1 <= sy -> init (H, W) (w, h) (a, b) (sx, sy) = Ok st ->
  forall j, 0 <= j < total_steps st ->
  exists x0 y0, here (set_k st j) = Ok (x0, y0, x0 + w, y0 + h) /\
    a <= x0 /\ x0 + w <= W /\ b <= y0 /\ y0 + h <= H.
Proof.
  intros Hsx Hsy Hinit j Hj.
  destruct (init_corners H W w h a b sx sy st Hsx Hsy Hinit)
    as [Hw [Hh [Ha [Hb [Hshape [Hws [Hk Hc]]]]]]].
  rewrite here_corner by (unfold set_k, total_steps in *; simpl; lia).
  simpl. destruct (nth (Z.to_nat j) (top_left_corners st) (0, 0)) as [x0 y0] eqn:En.
  assert (Hin : In (x0, y0) (top_left_corners st)).
  { rewrite <- En. apply nth_In. unfold total_steps in Hj. lia. }
  rewrite Hc, in_row_major in Hin. destruct Hin as [Hx Hy].
  apply in_stepped in Hx; [|lia]. apply in_stepped in Hy; [|lia].
  exists x0, y0. unfold corner_window. simpl. rewrite Hshape, Hws. simpl.
  rewrite Z.min_l by lia. rewrite Z.min_l by lia. split; [reflexivity|]. lia.
Qed.

Lemma init_windows_inside_image_witness :
  exists st, init (5, 7) (3, 2) (1, 1) (2, 2) = Ok st /\
  exists x0 y0, here (set_k st 3) = Ok (x0, y0, x0 + 3, y0 + 2) /\
    1 <= x0 /\ x0 + 3 <= 7 /\ 1 <= y0 /\ y0 + 2 <= 5.
Proof.
  eexists. split; [reflexivity|].
  apply (init_windows_inside_image 5 7 3 2 1 1 2 2); [lia | lia | reflexivity |].
  unfold total_steps, set_k; simpl; lia.
Defined.

(** A zero step makes the constructor raise (numpy's [arange] divides by the
    step); a negative step gives an explorer with no position, on which
    [next()] raises [StopIteration] and [last()] raises
    [Error("Empty iterator")]. *)
Theorem init_nonpositive_step (H W w h a b sx sy : Z) :
  2 <= w -> 2 <= h -> a + w <= W -> b + h <= H ->
  ((sx = 0 \/ sy = 0) -> init (H, W) (w, h) (a, b) (sx, sy) = Raise ZeroDivisionError) /\
  (sx <> 0 -> sy <> 0 -> (sx < 0 \/ sy < 0) ->
     exists st, init (H, W) (w, h) (a, b) (sx, sy) = Ok st /\ total_steps st = 0 /\
       next st = (Raise StopIteration, st) /\
       last st = (Raise (CoreError "Empty iterator"), st)).
Proof.
  intros Hw Hh Ha Hb. unfold init. simpl.
  replace ((w <? 2) || (h <? 2)) with false
    by (symmetry; apply orb_false_iff; split; apply Z.ltb_ge; lia).
  replace ((W <? a + w) || (H <? b + h)) with false
    by (symmetry; apply orb_false_iff; split; apply Z.ltb_ge; lia).
  split.
  - intros [E|E]; subst.
    + reflexivity.
    + unfold arange at 1. destruct (sx =? 0); [reflexivity|]. reflexivity.
  - intros Hx Hy Hneg.
    destruct Hneg as [Hn|Hn].
    + rewrite (arange_neg_step a (W - w + 1) sx) by lia.
      unfold arange at 1. destruct (Z.eqb_spec sy 0) as [E|_]; [lia|]. simpl.
      unfold reshape_flat. rewrite concat_map_nil. simpl.
      eexists. split; [reflexivity|].
      unfold total_steps, next, last. simpl. auto.
    + unfold arange at 1. destruct (Z.eqb_spec sx 0) as [E|_]; [lia|]. simpl.
      rewrite (arange_neg_step b (H - h + 1) sy) by lia. simpl.
      eexists. split; [reflexivity|].
      unfold total_steps, next, last. simpl. auto.
Qed.

Lemma init_nonpositive_step_witness :
  init (4, 4) (2, 2) (0, 0) (0, 1) = Raise ZeroDivisionError /\
  exists st, init (4, 4) (2, 2) (0, 0) (-1, 1) = Ok st /\ total_steps st = 0 /\
    next st = (Raise StopIteration, st) /\ last st = (Raise (CoreError "Empty iterator"), st).
Proof.
  destruct (init_nonpositive_step 4 4 2 2 0 0 0 1 ltac:(lia) ltac:(lia) ltac:(lia) ltac:(lia))
    as [Z0 _].
  destruct (init_nonpositive_step 4 4 2 2 0 0 (-1) 1 ltac:(lia) ltac:(lia) ltac:(lia) ltac:(lia))
    as [_ N].
  split; [apply Z0; left; reflexivity|].
  apply N; [discriminate | discriminate | left; reflexivity].
Defined.

(** Iterating an explorer from position [k] (a [for] loop, or [list(sw)])
    yields the windows of the corners [k, k+1, ...] in their precomputed
    order and leaves it at [total_steps()]; from [reset()] it yields every
    window. *)
Theorem drain_windows (st : MRISlidingWindow) (fuel : nat) :
  0 <= k st <= total_steps st -> total_steps st - k st < Z.of_nat fuel ->
  drain fuel st =
    (Ok (map (corner_window st) (skipn (Z.to_nat (k st)) (top_left_corners st))),
     set_k st (total_steps st)).
Proof.
  revert st. induction fuel as [|fuel IH]; intros st Hk Hf; [lia|].
  simpl. unfold next.
  destruct (Z.ltb_spec (k st) (total_steps st)) as [Hlt|Hge].
  - rewrite here_corner by lia.
    rewrite (IH (set_k st (k st + 1))) by (unfold set_k, total_steps in *; simpl; lia).
    simpl. unfold set_k at 2. simpl.
    rewrite (skipn_nth_cons' (Z.to_nat (k st)) (top_left_corners st) (0, 0))
      by (unfold total_steps in Hlt; lia).
    replace (Z.to_nat (k st + 1)) with (S (Z.to_nat (k st))) by lia.
    reflexivity.
  - assert (E : k st = total_steps st) by lia.
    rewrite skipn_all2 by (unfold total_steps in E; lia). simpl.
    rewrite <- E, set_k_k. reflexivity.
Qed.

Lemma drain_windows_witness :
  exists st, init (3, 4) (2, 2) (0, 0) (1, 1) = Ok st /\
  drain 7 st = (Ok [(0, 0, 2, 2); (1, 0, 3, 2); (2, 0, 4, 2);
                    (0, 1, 2, 3); (1, 1, 3, 3); (2, 1, 4, 3)], set_k st 6).
Proof.
  exists (mkSW (3, 4) (2, 2) (0, 0) (1, 1) 0
            [(0, 0); (1, 0); (2, 0); (0, 1); (1, 1); (2, 1)]).
  split; [reflexivity|].
  rewrite (drain_windows (mkSW (3, 4) (2, 2) (0, 0) (1, 1) 0
             [(0, 0); (1, 0); (2, 0); (0, 1); (1, 1); (2, 1)]) 7)
    by (unfold total_steps; simpl; lia).
  reflexivity.
Defined.

(** [prev()] undoes [next()]: from a position [k < total_steps()], [next()]
    then [prev()] returns the same window twice and comes back to [k]; and
    on a non-empty explorer [last()] returns the last window, after which
    [next()] returns that window again and a further [next()] raises
    [StopIteration]. *)
Theorem next_prev_last_roundtrip (st : MRISlidingWindow) :
  (0 <= k st < total_steps st ->
     exists win, next st = (Ok win, set_k st (k st + 1)) /\
                 prev (set_k st (k st + 1)) = (Ok win, st)) /\
  (0 < total_steps st ->
     exists win, last st = (Ok win, set_k st (total_steps st - 1)) /\
                 next (set_k st (total_steps st - 1)) = (Ok win, set_k st (total_steps st)) /\
                 next (set_k st (total_steps st)) = (Raise StopIteration, set_k st (total_steps st))).
Proof.
  split.
  - intros Hk. eexists. unfold next. rewrite (proj2 (Z.ltb_lt _ _) (proj2 Hk)).
    rewrite here_corner by exact Hk. split; [reflexivity|].
    unfold prev. simpl.
    rewrite (proj2 (Z.leb_le 1 (k st + 1))) by lia.
    rewrite set_k_set_k. replace (k st + 1 - 1) with (k st) by lia. rewrite set_k_k.
    rewrite here_corner by exact Hk. reflexivity.
  - intros Ht. eexists. unfold last. rewrite (proj2 (Z.ltb_lt _ _) Ht).
    rewrite here_corner by (unfold set_k, total_steps in *; simpl; lia).
    split; [reflexivity|]. split.
    + unfold next. simpl.
      rewrite (proj2 (Z.ltb_lt (total_steps st - 1) (total_steps (set_k st (total_steps st - 1)))))
        by (unfold set_k, total_steps in *; simpl; lia).
      rewrite here_corner by (unfold set_k, total_steps in *; simpl; lia).
      rewrite set_k_set_k. replace (total_steps st - 1 + 1) with (total_steps st) by lia.
      reflexivity.
    + unfold next. simpl. unfold total_steps at 2. simpl. fold (total_steps st).
      rewrite Z.ltb_irrefl. reflexivity.
Qed.

Lemma next_prev_last_roundtrip_witness :
  exists st, init (3, 4) (2, 2) (0, 0) (1, 1) = Ok st /\
  next (set_k st 4) = (Ok (1, 1, 3, 3), set_k st 5) /\
  prev (set_k st 5) = (Ok (1, 1, 3, 3), set_k st 4).
Proof.
  exists (mkSW (3, 4) (2, 2) (0, 0) (1, 1) 0
            [(0, 0); (1, 0); (2, 0); (0, 1); (1, 1); (2, 1)]).
  split; [reflexivity|].
  destruct (proj1 (next_prev_last_roundtrip (set_k (mkSW (3, 4) (2, 2) (0, 0) (1, 1) 0
              [(0, 0); (1, 0); (2, 0); (0, 1); (1, 1); (2, 1)]) 4))
              ltac:(unfold total_steps; simpl; lia)) as [win [Hn Hp]].
  vm_compute in Hn. injection Hn as <-. split; [reflexivity|]. exact Hp.
Defined.

End TileExplorerExtras.

Module CompgeomExtraFacts.
Import Compgeom.

Fixpoint bounds (acc : nat) (rn : list nat) : list (nat * nat) :=
  match rn with
  | [] => []
  | x :: l => (acc, (acc + x)%nat) :: bounds (acc + x) l
  end.

Lemma length_cumsum' (acc : nat) (l : list nat) : length (cumsum acc l) = length l.
Proof. revert acc. induction l; intros acc; simpl; auto. Qed.

Lemma combine_cumsum_bounds (acc : nat) (rn : list nat) :
  combine (acc :: removelast (cumsum acc rn)) (cumsum acc rn) = bounds acc rn.
Proof.
  revert acc. induction rn as [|x l IH]; intros acc; [reflexivity|].
  simpl. destruct l as [|y l'].
  - reflexivity.
  - specialize (IH (acc + x)%nat). simpl in IH |- *. rewrite IH. reflexivity.
Qed.

Lemma firstn_add' {A} (a b : nat) (L : list A) :
  firstn (a + b) L = firstn a L ++ firstn b (skipn a L).
Proof.
  revert L. induction a as [|a IH]; intros [|x L]; simpl; auto.
  - destruct b; reflexivity.
  - rewrite IH. reflexivity.
Qed.

Lemma slice_app {A} (l : list A) (i j m : nat) :
  (i <= j)%nat -> (j <= m)%nat -> slice l i j ++ slice l j m = slice l i m.
Proof.
  intros Hij Hjm. unfold slice.
  replace (m - i)%nat with ((j - i) + (m - j))%nat by lia.
  rewrite firstn_add', skipn_skipn. replace (j - i + i)%nat with j by lia. reflexivity.
Qed.

Lemma length_slice {A} (l : list A) (i j : nat) :
  (i <= j)%nat -> (j <= length l)%nat -> length (slice l i j) = (j - i)%nat.
Proof.
  intros Hij Hj. unfold slice. rewrite length_firstn, length_skipn. lia.
Qed.

Lemma slice_nil {A} (l : list A) (i : nat) : slice l i i = [].
Proof. unfold slice. rewrite Nat.sub_diag. reflexivity. Qed.

Lemma bounds_components (rx ry : list Q) (rn : list nat) (acc : nat) :
  (acc + list_sum rn <= length rx)%nat -> (acc + list_sum rn <= length ry)%nat ->
  let comps := map (fun '(i, j) => combine (slice rx i j) (slice ry i j)) (bounds acc rn) in
  map (@length _) comps = rn /\
  concat comps = combine (slice rx acc (acc + list_sum rn)) (slice ry acc (acc + list_sum rn)).
Proof.
  revert acc. induction rn as [|x l IH]; intros acc Hx Hy; simpl.
  - rewrite Nat.add_0_r, !slice_nil. split; reflexivity.
  - simpl in Hx, Hy. destruct (IH (acc + x)%nat) as [L C]; [lia | lia |].
    split.
    + rewrite L. f_equal. rewrite length_combine, !length_slice by lia. lia.
    + rewrite C, <- TileExplorerFacts.combine_app by (rewrite !length_slice by lia; reflexivity).
      rewrite !slice_app by lia. rewrite Nat.add_assoc. reflexivity.
Qed.

Lemma slice_all {A} (l : list A) : slice l 0 (length l) = l.
Proof. unfold slice. rewrite Nat.sub_0_r. apply firstn_all. Qed.

End CompgeomExtraFacts.

Module CompgeomExtras.
Import Compgeom CompgeomExtraFacts.

Section AnyKernel.
Context `{NativeGeometry}.

(** When the native intersection reports [n > 1] components with vertex
    counts [rn] adding up to the number of returned vertices, the wrapper
    cuts the vertex lists [rx], [ry] into consecutive pieces: the k-th
    component has [rn[k]] vertices, and the components put end to end give
    back all the vertices in their order. *)
Theorem intersection_components_partition (P Qp : polygon) (n : Z)
    (rx ry : list Q) (rn : list nat) :
  simple_polygon_intersection_ (xs_of P) (ys_of P) (xs_of Qp) (ys_of Qp) = (n, (rx, ry, rn)) ->
  1 < n -> list_sum rn = length rx -> length ry = length rx ->
  exists comps, simple_polygon_intersection P Qp = Ok comps /\
    map (@length _) comps = rn /\ concat comps = combine rx ry.
Proof.
  intros Hn Hgt Hsum Hlen. unfold simple_polygon_intersection. rewrite Hn.
  replace (n =? 0) with false by (symmetry; apply Z.eqb_neq; lia).
  replace ((n =? -1) || (n =? -2)) with false
    by (symmetry; apply orb_false_iff; split; apply Z.eqb_neq; lia).
  replace (n =? -3) with false by (symmetry; apply Z.eqb_neq; lia).
  replace (n =? -4) with false by (symmetry; apply Z.eqb_neq; lia).
  rewrite (proj2 (Z.ltb_lt 1 n) Hgt).
  eexists. split; [reflexivity|].
  unfold split_components. rewrite combine_cumsum_bounds.
  destruct (bounds_components rx ry rn 0) as [L C]; [lia | lia |].
  split; [exact L|]. etransitivity; [exact C|]. simpl. rewrite Hsum.
  rewrite slice_all, <- Hlen, slice_all. reflexivity.
Qed.

End AnyKernel.

#[local] Instance two_component_kernel : NativeGeometry := {|
  polygon_equality_ := fun _ _ _ _ => 1%Z;
  simple_polygon_intersection_ := fun _ _ _ _ =>
    (2%Z, ([0; 2; 2; 5; 7; 7]%Q, [0; 0; 2; 5; 5; 7]%Q, [3; 3]%nat));
  point_wrt_polygon_ := fun _ _ _ _ => (0%Z, []);
  cgal_is_convex := fun _ => false
|}.

Lemma intersection_components_partition_witness :
  exists comps, @simple_polygon_intersection two_component_kernel [] [] = Ok comps /\
    map (@length _) comps = [3; 3]%nat /\
    concat comps = combine [0; 2; 2; 5; 7; 7]%Q [0; 0; 2; 5; 5; 7]%Q.
Proof.
  exact (@intersection_components_partition two_component_kernel [] [] 2
           [0; 2; 2; 5; 7; 7]%Q [0; 0; 2; 5; 5; 7]%Q [3; 3]%nat
           eq_refl ltac:(lia) eq_refl eq_refl).
Defined.

End CompgeomExtras.

Module MaskOpsFacts.
Import ApplyMask MaskOps.

Lemma zrange_in (a b x : Z) : In x (zrange a b) -> a <= x < b.
Proof.
  unfold zrange. intros Hx. apply in_map_iff in Hx as [i [<- Hi]].
  apply in_seq in Hi. lia.
Qed.

Lemma floor_max0_nonneg (q : Q) : 0 <= Qfloor (Qmax 0 q).
Proof.
  change 0 with (Qfloor 0) at 1. apply Qfloor_resp_le. apply Q.le_max_l.
Qed.

(** the pixels of [skimage.draw.polygon] lie in [[0, shape)] *)
Lemma skimage_polygon_bounds (r c : list Q) (shape : Z * Z) (rr cc : list Z) :
  Skimage.polygon r c shape = Ok (rr, cc) ->
  length rr = length cc /\
  Forall (fun '(i, j) => 0 <= i < fst shape /\ 0 <= j < snd shape) (combine rr cc).
Proof.
  unfold Skimage.polygon.
  destruct (Skimage.np_min r) as [rmin|]; [|discriminate]. simpl.
  destruct (Skimage.np_max r) as [rmax|]; [|discriminate]. simpl.
  destruct (Skimage.np_min c) as [cmin|]; [|discriminate]. simpl.
  destruct (Skimage.np_max c) as [cmax|]; [|discriminate]. simpl.
  intros E. injection E as <- <-.
  rewrite length_map, length_map. split; [reflexivity|].
  match goal with |- Forall _ (combine (map fst ?px) (map snd ?px)) =>
    set (pts := px) end.
  assert (Hc : combine (map fst pts) (map snd pts) = pts).
  { clear. induction pts as [|[a b] l IH]; simpl; [reflexivity|]. now rewrite IH. }
  rewrite Hc. apply Forall_forall. intros [i j] Hin.
  unfold pts in Hin. apply in_flat_map in Hin as [i' [Hi' Hin]].
  apply in_flat_map in Hin as [j' [Hj' Hin]].
  destruct (Skimage.point_in_polygon _ _ _ _); [|contradiction].
  destruct Hin as [E|[]]. injection E as <- <-.
  apply zrange_in in Hi', Hj'.
  pose proof (floor_max0_nonneg rmin). pose proof (floor_max0_nonneg cmin).
  simpl. lia.
Qed.

Lemma length_update_nth {A} (n : nat) (f : A -> A) (l : list A) :
  length (update_nth n f l) = length l.
Proof.
  revert n. induction l as [|x l IH]; intros [|n]; simpl; auto.
Qed.

Lemma nth_error_update_nth {A} (n : nat) (f : A -> A) (l : list A) (i : nat) :
  nth_error (update_nth n f l) i =
  if (n =? i)%nat then option_map f (nth_error l i) else nth_error l i.
Proof.
  revert n i. induction l as [|x l IH]; intros [|n] [|i]; simpl; auto.
  - destruct (n =? i)%nat; reflexivity.
Qed.

Lemma at2_set2 (m : list (list Z)) (a b i j : nat) (v : Z) :
  at2 (set2 m a b v) i j =
  if (a =? i)%nat && (b =? j)%nat then option_map (fun _ => v) (at2 m i j) else at2 m i j.
Proof.
  unfold at2, set2. rewrite nth_error_update_nth.
  destruct (Nat.eqb_spec a i) as [->|Ha]; simpl.
  - destruct (nth_error m i) as [row|]; simpl; [|destruct (b =? j)%nat; reflexivity].
    rewrite nth_error_update_nth. destruct (b =? j)%nat; reflexivity.
  - reflexivity.
Qed.

Lemma rectangular_set2 (m : list (list Z)) (cols a b : nat) (v : Z) :
  rectangular m cols -> rectangular (set2 m a b v) cols.
Proof.
  unfold rectangular, set2. revert a. induction m as [|row m IH]; intros [|a] Hr;
    inversion Hr; subst; simpl; constructor; auto.
  rewrite length_update_nth. reflexivity.
Qed.

Definition hits (L : list (nat * nat)) (i j : nat) : bool :=
  existsb (fun '(a, b) => (a =? i)%nat && (b =? j)%nat) L.

Lemma fold_set2 (v : Z) (L : list (nat * nat)) :
  forall m, 
  length (fold_left (fun m '(a, b) => set2 m a b v) L m) = length m /\
  (forall cols, rectangular m cols ->
     rectangular (fold_left (fun m '(a, b) => set2 m a b v) L m) cols) /\
  forall i j, at2 (fold_left (fun m '(a, b) => set2 m a b v) L m) i j =
    if hits L i j then option_map (fun _ => v) (at2 m i j) else at2 m i j.
Proof.
  induction L as [|[a b] L IH]; intros m; simpl.
  - split; [reflexivity|]. split; [auto|]. reflexivity.
  - destruct (IH (set2 m a b v)) as [Hl [Hr Ha]]. split; [|split].
    + rewrite Hl. unfold set2. apply length_update_nth.
    + intros cols Hc. apply Hr. apply rectangular_set2. exact Hc.
    + intros i j. rewrite Ha, at2_set2. unfold hits at 1. simpl. fold (hits L i j).
      destruct ((a =? i)%nat && (b =? j)%nat); simpl;
        destruct (hits L i j); try reflexivity.
      destruct (at2 m i j); reflexivity.
Qed.

Lemma at2_ext (m m' : list (list Z)) :
  length m = length m' -> (forall i j, at2 m i j = at2 m' i j) -> m = m'.
Proof.
  intros Hl Ha. apply nth_error_ext. intros i.
  destruct (nth_error m i) as [r|] eqn:E1, (nth_error m' i) as [r'|] eqn:E2.
  - f_equal. apply nth_error_ext. intros j. specialize (Ha i j).
    unfold at2 in Ha. rewrite E1, E2 in Ha. exact Ha.
  - apply nth_error_None in E2. assert (i < length m)%nat by (apply nth_error_Some; congruence). lia.
  - apply nth_error_None in E1. assert (i < length m')%nat by (apply nth_error_Some; congruence). lia.
  - reflexivity.
Qed.

Lemma at2_in_bounds (m : list (list Z)) (cols i j : nat) :
  rectangular m cols -> (i < length m)%nat -> (j < cols)%nat -> exists v, at2 m i j = Some v.
Proof.
  intros Hr Hi Hj. unfold at2.
  destruct (nth_error m i) as [row|] eqn:E; [|apply nth_error_None in E; lia].
  assert (Hrow : length row = cols).
  { apply nth_error_In in E. unfold rectangular in Hr. rewrite Forall_forall in Hr. auto. }
  destruct (nth_error row j) as [v|] eqn:Ev; [eauto|apply nth_error_None in Ev; lia].
Qed.

Lemma shape_of_rect (m : list (list Z)) (cols : nat) :
  rectangular m cols -> m <> [] -> shape_of m = (Z.of_nat (length m), Z.of_nat cols).
Proof.
  intros Hr Hne. destruct m as [|row m]; [congruence|].
  inversion Hr; subst. reflexivity.
Qed.

Lemma resolve_in_range (nr nc : Z) (ps : list (Z * Z)) :
  Forall (fun '(i, j) => 0 <= i < nr /\ 0 <= j < nc) ps ->
  resolve_all nr nc ps = Some (map (fun '(i, j) => (Z.to_nat i, Z.to_nat j)) ps).
Proof.
  induction ps as [|[i j] ps IH]; intros Hf; [reflexivity|].
  inversion Hf as [|? ? Hij Hf']; subst. destruct Hij as [Hi Hj]. simpl.
  unfold py_index.
  rewrite (proj2 (andb_true_iff _ _) (conj (proj2 (Z.leb_le _ _) (proj1 Hi)) (proj2 (Z.ltb_lt _ _) (proj2 Hi)))).
  rewrite (proj2 (andb_true_iff _ _) (conj (proj2 (Z.leb_le _ _) (proj1 Hj)) (proj2 (Z.ltb_lt _ _) (proj2 Hj)))).
  rewrite IH by exact Hf'. reflexivity.
Qed.

Lemma hits_map (ps : list (Z * Z)) (i j : nat) :
  Forall (fun '(a, b) => 0 <= a /\ 0 <= b) ps ->
  hits (map (fun '(a, b) => (Z.to_nat a, Z.to_nat b)) ps) i j = true <->
  In (Z.of_nat i, Z.of_nat j) ps.
Proof.
  induction ps as [|[a b] ps IH]; intros Hf; simpl; [split; [discriminate | tauto]|].
  inversion Hf as [|? ? Hab Hf']; subst. destruct Hab as [Ha Hb].
  unfold hits in *. simpl. rewrite orb_true_iff, IH by exact Hf'.
  rewrite andb_true_iff, !Nat.eqb_eq. split.
  - intros [[E1 E2]|H]; [left|right; exact H]. f_equal; lia.
  - intros [E|H]; [left|right; exact H]. injection E as E1 E2. lia.
Qed.

(** add_region on a rectangular mask: the pixels of the polygon become 1 *)
Lemma add_region_spec (mask : ndarray2) (poly : polygon) (cols : nat) :
  poly <> [] -> data mask <> [] -> rectangular (data mask) cols ->
  exists c r m',
    Masks.masked_points poly (shape_of (data mask)) = Ok (c, r) /\
    add_region mask poly = Ok (mkArray2 (dt mask) m') /\
    length m' = length (data mask) /\ rectangular m' cols /\
    shape_of m' = shape_of (data mask) /\
    forall i j, at2 m' i j =
      if hits (map (fun '(a, b) => (Z.to_nat a, Z.to_nat b)) (combine r c)) i j
      then Some 1 else at2 (data mask) i j.
Proof.
  intros Hp Hne Hr.
  destruct poly as [|p0 rest]; [congruence|].
  unfold Masks.masked_points.
  destruct (Skimage.polygon (ys_of (p0 :: rest)) (xs_of (p0 :: rest)) (shape_of (data mask)))
    as [[rr cc]|e] eqn:Ep.
  2:{ exfalso. revert Ep. unfold Skimage.polygon, Skimage.np_min, Skimage.np_max. simpl.
      discriminate. }
  destruct (skimage_polygon_bounds _ _ _ _ _ Ep) as [Hlen Hb].
  rewrite (shape_of_rect _ cols Hr Hne) in Hb.
  set (idx := map (fun '(a, b) => (Z.to_nat a, Z.to_nat b)) (combine rr cc)).
  destruct (fold_set2 1 idx (data mask)) as [Hl [Hrect Hat]].
  exists cc, rr, (fold_left (fun m '(a, b) => set2 m a b 1) idx (data mask)).
  split; [reflexivity|]. split.
  - unfold add_region, Masks.masked_points. rewrite Ep. simpl.
    unfold fancy_set. rewrite (shape_of_rect _ cols Hr Hne).
    rewrite resolve_in_range by exact Hb. reflexivity.
  - split; [exact Hl|]. split; [apply Hrect, Hr|]. split.
    + assert (Hne' : fold_left (fun m '(a, b) => set2 m a b 1) idx (data mask) <> []).
      { intros E. rewrite E in Hl. destruct (data mask); simpl in Hl; [congruence | discriminate]. }
      rewrite (shape_of_rect _ cols (Hrect _ Hr) Hne'), (shape_of_rect _ cols Hr Hne), Hl.
      reflexivity.
    + intros i j. rewrite Hat. fold idx.
      destruct (hits idx i j) eqn:Eh; [|reflexivity].
      apply hits_map in Eh.
      2:{ eapply Forall_impl; [|exact Hb]. intros [a b]; simpl; lia. }
      rewrite Forall_forall in Hb. specialize (Hb _ Eh). simpl in Hb.
      destruct (at2_in_bounds (data mask) cols i j Hr) as [v Hv]; [lia | lia |].
      rewrite Hv. reflexivity.
Qed.

Lemma masked_points_bounds (poly : polygon) (shape : Z * Z) :
  poly <> [] ->
  exists c r, Masks.masked_points poly shape = Ok (c, r) /\ length r = length c /\
    Forall (fun '(i, j) => 0 <= i < fst shape /\ 0 <= j < snd shape) (combine r c).
Proof.
  intros Hp. destruct poly as [|p0 rest]; [congruence|].
  unfold Masks.masked_points.
  destruct (Skimage.polygon (ys_of (p0 :: rest)) (xs_of (p0 :: rest)) shape)
    as [[rr cc]|e] eqn:Ep.
  2:{ exfalso. revert Ep. unfold Skimage.polygon, Skimage.np_min, Skimage.np_max. simpl.
      discriminate. }
  destruct (skimage_polygon_bounds _ _ _ _ _ Ep) as [Hlen Hb].
  exists cc, rr. split; [reflexivity|]. split; assumption.
Qed.

(** add_region, pixel by pixel, with the polygon's pixels as a proposition *)
Lemma add_region_pixels_of (mask : ndarray2) (poly : polygon) (cols : nat) :
  poly <> [] -> data mask <> [] -> rectangular (data mask) cols ->
  exists c r m',
    Masks.masked_points poly (shape_of (data mask)) = Ok (c, r) /\
    add_region mask poly = Ok (mkArray2 (dt mask) m') /\
    length m' = length (data mask) /\ rectangular m' cols /\
    shape_of m' = shape_of (data mask) /\
    forall i j,
      (In (Z.of_nat i, Z.of_nat j) (combine r c) -> at2 m' i j = Some 1) /\
      (~ In (Z.of_nat i, Z.of_nat j) (combine r c) -> at2 m' i j = at2 (data mask) i j).
Proof.
  intros Hp Hne Hr.
  destruct (masked_points_bounds poly (shape_of (data mask)) Hp) as [c0 [r0 [Em [_ Hb]]]].
  destruct (add_region_spec mask poly cols Hp Hne Hr)
    as [c [r [m' [Em' [Ea [Hl [Hr' [Hs Hat]]]]]]]].
  rewrite Em in Em'. injection Em' as <- <-.
  exists c0, r0, m'. do 5 (split; [assumption|]).
  assert (Hnn : Forall (fun '(a, b) => 0 <= a /\ 0 <= b) (combine r0 c0)).
  { eapply Forall_impl; [|exact Hb]. intros [a b]; simpl; lia. }
  intros i j. rewrite Hat. split.
  - intros Hin. apply hits_map in Hin; [|exact Hnn]. rewrite Hin. reflexivity.
  - intros Hn. destruct (hits _ i j) eqn:Eh; [|reflexivity].
    apply hits_map in Eh; [contradiction|exact Hnn].
Qed.

Lemma zz_eq_dec (x y : Z * Z) : {x = y} + {x <> y}.
Proof. decide equality; apply Z.eq_dec. Defined.

End MaskOpsFacts.

Module MaskOpsExtras.
Import ApplyMask MaskOps MaskOpsFacts.

(** [masked_points(P, shape)] raises [IndexError] on an empty vertex list;
    otherwise it returns two lists [(c, r)] of one length whose pairs
    [(r[i], c[i])] all lie inside the array shape, [0 <= r < shape[0]] and
    [0 <= c < shape[1]]: the pixels are clipped to the shape. *)
Theorem masked_points_in_shape (poly : polygon) (shape : Z * Z) :
  (poly = [] -> Masks.masked_points poly shape = Raise IndexError) /\
  (poly <> [] ->
     exists c r, Masks.masked_points poly shape = Ok (c, r) /\ length r = length c /\
       forall i j, In (i, j) (combine r c) -> 0 <= i < fst shape /\ 0 <= j < snd shape).
Proof.
  split; [intros ->; reflexivity|].
  intros Hp. destruct (masked_points_bounds poly shape Hp) as [c [r [E [L B]]]].
  exists c, r. split; [exact E|]. split; [exact L|].
  intros i j Hin. rewrite Forall_forall in B. exact (B _ Hin).
Qed.

Lemma masked_points_in_shape_witness :
  Masks.masked_points [] (3, 4) = Raise IndexError /\
  exists c r, Masks.masked_points [(0, 0); (9, 0); (9, 9)]%Q (3, 4) = Ok (c, r) /\
    length r = length c /\
    forall i j, In (i, j) (combine r c) -> 0 <= i < fst (3, 4) /\ 0 <= j < snd (3, 4).
Proof.
  split.
  - apply (proj1 (masked_points_in_shape [] (3, 4))). reflexivity.
  - apply (proj2 (masked_points_in_shape [(0, 0); (9, 0); (9, 9)]%Q (3, 4))). discriminate.
Defined.

(** [add_region(mask, P)] on a rectangular, non-empty mask and a non-empty
    polygon never raises: it sets to 1 every pixel [(r[i], c[i])] returned
    by [masked_points(P, mask.shape)], leaves every other pixel as it was,
    and keeps the mask's dtype and shape. *)
Theorem add_region_pixels (mask : ndarray2) (poly : polygon) (cols : nat) :
  poly <> [] -> data mask <> [] -> rectangular (data mask) cols ->
  exists c r m',
    Masks.masked_points poly (shape_of (data mask)) = Ok (c, r) /\
    add_region mask poly = Ok (mkArray2 (dt mask) m') /\
    shape_of m' = shape_of (data mask) /\
    forall i j,
      (In (Z.of_nat i, Z.of_nat j) (combine r c) -> at2 m' i j = Some 1) /\
      (~ In (Z.of_nat i, Z.of_nat j) (combine r c) -> at2 m' i j = at2 (data mask) i j).
Proof.
  intros Hp Hne Hr.
  destruct (add_region_pixels_of mask poly cols Hp Hne Hr)
    as [c [r [m' [Em [Ea [_ [_ [Hs Hat]]]]]]]].
  exists c, r, m'. auto.
Qed.

Lemma add_region_pixels_witness :
  exists c r m',
    Masks.masked_points [(1, 1); (3, 1); (3, 3); (1, 3)]%Q (shape_of [[0; 0; 0; 0]; [0; 0; 0; 0]; [0; 0; 0; 0]]) = Ok (c, r) /\
    add_region (mkArray2 UInt8 [[0; 0; 0; 0]; [0; 0; 0; 0]; [0; 0; 0; 0]]) [(1, 1); (3, 1); (3, 3); (1, 3)]%Q
      = Ok (mkArray2 UInt8 m') /\
    shape_of m' = shape_of [[0; 0; 0; 0]; [0; 0; 0; 0]; [0; 0; 0; 0]] /\
    forall i j,
      (In (Z.of_nat i, Z.of_nat j) (combine r c) -> at2 m' i j = Some 1) /\
      (~ In (Z.of_nat i, Z.of_nat j) (combine r c) -> at2 m' i j = at2 [[0; 0; 0; 0]; [0; 0; 0; 0]; [0; 0; 0; 0]] i j).
Proof.
  apply (add_region_pixels (mkArray2 UInt8 [[0; 0; 0; 0]; [0; 0; 0; 0]; [0; 0; 0; 0]])
           [(1, 1); (3, 1); (3, 3); (1, 3)]%Q 4); [discriminate | discriminate |].
  repeat constructor.
Defined.

(** Adding a region twice is adding it once, and two regions can be added
    in either order with the same resulting mask (on a rectangular,
    non-empty mask, with non-empty polygons). *)
Theorem add_region_idempotent_commutative (mask : ndarray2) (P1 P2 : polygon) (cols : nat) :
  P1 <> [] -> P2 <> [] -> data mask <> [] -> rectangular (data mask) cols ->
  (m1 <- add_region mask P1 ;; add_region m1 P1) = add_region mask P1 /\
  (m1 <- add_region mask P1 ;; add_region m1 P2) =
  (m2 <- add_region mask P2 ;; add_region m2 P1).
Proof.
  intros H1 H2 Hne Hr.
  destruct (add_region_pixels_of mask P1 cols H1 Hne Hr)
    as [c1 [r1 [m1 [Em1 [Ea1 [Hl1 [Hr1 [Hs1 Hat1]]]]]]]].
  destruct (add_region_pixels_of mask P2 cols H2 Hne Hr)
    as [c2 [r2 [m2 [Em2 [Ea2 [Hl2 [Hr2 [Hs2 Hat2]]]]]]]].
  assert (Hne1 : m1 <> []) by (intros E; subst; destruct (data mask); simpl in Hl1; congruence).
  assert (Hne2 : m2 <> []) by (intros E; subst; destruct (data mask); simpl in Hl2; congruence).
  rewrite Ea1, Ea2. simpl.
  destruct (add_region_pixels_of (mkArray2 (dt mask) m1) P1 cols H1 Hne1 Hr1)
    as [c11 [r11 [m11 [Em11 [Ea11 [Hl11 [_ [_ Hat11]]]]]]]].
  destruct (add_region_pixels_of (mkArray2 (dt mask) m1) P2 cols H2 Hne1 Hr1)
    as [c12 [r12 [m12 [Em12 [Ea12 [Hl12 [_ [_ Hat12]]]]]]]].
  destruct (add_region_pixels_of (mkArray2 (dt mask) m2) P1 cols H1 Hne2 Hr2)
    as [c21 [r21 [m21 [Em21 [Ea21 [Hl21 [_ [_ Hat21]]]]]]]].
  simpl in *. rewrite Hs1 in Em11, Em12. rewrite Hs2 in Em21.
  rewrite Em1 in Em11, Em21. rewrite Em2 in Em12.
  injection Em11 as <- <-. injection Em12 as <- <-. injection Em21 as <- <-.
  rewrite Ea11, Ea12, Ea21. split.
  - f_equal. f_equal. apply at2_ext; [lia|]. intros i j.
    destruct (Hat11 i j) as [A1 B1], (Hat1 i j) as [A2 B2].
    destruct (in_dec zz_eq_dec
                (Z.of_nat i, Z.of_nat j) (combine r1 c1)) as [Hin|Hn].
    + rewrite A1, A2 by exact Hin. reflexivity.
    + rewrite B1 by exact Hn. reflexivity.
  - f_equal. f_equal. apply at2_ext; [lia|]. intros i j.
    destruct (Hat12 i j) as [A12 B12], (Hat21 i j) as [A21 B21].
    destruct (Hat1 i j) as [A1 B1], (Hat2 i j) as [A2 B2].
    destruct (in_dec zz_eq_dec
                (Z.of_nat i, Z.of_nat j) (combine r1 c1)) as [Hin1|Hn1];
    destruct (in_dec zz_eq_dec
                (Z.of_nat i, Z.of_nat j) (combine r2 c2)) as [Hin2|Hn2].
    + rewrite A12, A21 by assumption. reflexivity.
    + rewrite B12, A21 by assumption. rewrite A1 by assumption. reflexivity.
    + rewrite A12, B21 by assumption. rewrite A2 by assumption. reflexivity.
    + rewrite B12, B21 by assumption. rewrite B1, B2 by assumption. reflexivity.
Qed.

Lemma add_region_idempotent_commutative_witness :
  let mask := mkArray2 UInt8 [[0; 0; 0; 0]; [0; 0; 0; 0]; [0; 0; 0; 0]] in
  let P1 := [(0, 0); (2, 0); (2, 2)]%Q in
  let P2 := [(1, 1); (3, 1); (3, 2); (1, 2)]%Q in
  (m1 <- add_region mask P1 ;; add_region m1 P1) = add_region mask P1 /\
  (m1 <- add_region mask P1 ;; add_region m1 P2) =
  (m2 <- add_region mask P2 ;; add_region m2 P1).
Proof.
  intros mask P1 P2.
  apply (add_region_idempotent_commutative mask P1 P2 4);
    [discriminate | discriminate | discriminate | repeat constructor].
Defined.

End MaskOpsExtras.

Module AnnotExtraFacts.
Import Annot AnnotFacts.

(** the rows of a point set all have one length, at most two *)
Definition rows_of_len (L : nat) (rows : list (list Q)) : Prop :=
  (L <= 2)%nat /\ Forall (fun r => length r = L) rows.

Lemma firstn2_rows (rows : list (list Q)) (n : nat) :
  Forall (fun r => length r = n) rows ->
  Forall (fun r => length r = Nat.min 2 n) (map (firstn 2) rows).
Proof.
  intros H. apply Forall_map. eapply Forall_impl; [|exact H].
  intros r Hr. rewrite length_firstn, Hr. reflexivity.
Qed.

Lemma pointset_init_rows (x : x_arg) (y : y_arg) (nm : option string) (a : annotation) :
  pointset_init x y nm = Ok a -> exists L, rows_of_len L (xy a).
Proof.
  unfold pointset_init. intros E.
  destruct y as [|s|ys].
  3:{ destruct x as [rows|xs|v]; try discriminate.
      injection E as <-. exists 2%nat. split; [lia|]. simpl.
      apply Forall_forall. intros r Hr. apply in_map_iff in Hr as [[u v] [<- _]].
      reflexivity. }
  all: destruct (array_cols2 x) as [rows|e] eqn:Ea; simpl in E; [|discriminate];
       injection E as <-; cbn [xy];
       destruct x as [[|r0 rs]|xs|v]; unfold array_cols2 in Ea; try discriminate;
       match type of Ea with context [if ?b then _ else _] => destruct b eqn:Ef end;
       [|discriminate];
       injection Ea as <-;
       exists (Nat.min 2 (length r0)); split; [lia|];
       apply (firstn2_rows (r0 :: rs) (length r0));
       apply Forall_forall; intros r Hr;
       rewrite forallb_forall in Ef; apply Nat.eqb_eq, Ef, Hr.
Qed.

Lemma array_cols2_rows (L : nat) (rows : list (list Q)) :
  rows <> [] -> rows_of_len L rows -> array_cols2 (XRows rows) = Ok rows.
Proof.
  intros Hne [HL Hf]. destruct rows as [|r0 rs]; [congruence|].
  unfold array_cols2.
  rewrite Forall_forall in Hf.
  assert (Hb : forallb (fun r' => (length r' =? length r0)%nat) (r0 :: rs) = true).
  { apply forallb_forall. intros r Hr. apply Nat.eqb_eq.
    rewrite (Hf r Hr), (Hf r0 (or_introl eq_refl)). reflexivity. }
  rewrite Hb. f_equal.
  rewrite <- (map_id (r0 :: rs)) at 2. apply map_ext_in.
  intros r Hr. apply firstn_all2. rewrite (Hf r Hr). exact HL.
Qed.

End AnnotExtraFacts.

Module AnnotExtras.
Import Annot AnnotFacts AnnotDup AnnotExtraFacts.

(** [PointSet.duplicate] returns a point set equal to the original (same
    type, name and coordinates), except for a point set with no points
    (built from two empty coordinate sequences), whose duplicate raises
    [IndexError] on [[:, :2]]. *)
Theorem pointset_duplicate_roundtrip (x : x_arg) (y : y_arg) (nm : option string)
    (a : annotation) :
  pointset_init x y nm = Ok a ->
  (xy a <> [] -> pointset_duplicate a = Ok a) /\
  (xy a = [] -> pointset_duplicate a = Raise IndexError).
Proof.
  intros E. split.
  - intros Hne. destruct (pointset_init_rows x y nm a E) as [L HL].
    unfold pointset_duplicate, pointset_init.
    rewrite (array_cols2_rows L (xy a) Hne HL). simpl.
    assert (Ht : annotation_type a = "POINTSET"%string).
    { revert E. unfold pointset_init.
      destruct y as [|s|ys]; [| |destruct x; try discriminate; intros E; injection E as <-; reflexivity];
      destruct (array_cols2 x); simpl; intros E; try discriminate; injection E as <-; reflexivity. }
    destruct a as [t n rows]. simpl in *. rewrite Ht. reflexivity.
  - intros He. unfold pointset_duplicate. rewrite He. reflexivity.
Qed.

Lemma pointset_duplicate_roundtrip_witness :
  pointset_duplicate (mkAnnot "POINTSET" "cells" ([[1; 2]; [3; 4]])%Q) =
    Ok (mkAnnot "POINTSET" "cells" ([[1; 2]; [3; 4]])%Q) /\
  pointset_duplicate (mkAnnot "POINTSET" "POINTS" []) = Raise IndexError.
Proof.
  split.
  - apply (proj1 (pointset_duplicate_roundtrip (XFlat [1; 3]%Q) (YCoords [2; 4]%Q) (Some "cells"%string)
             (mkAnnot "POINTSET" "cells" ([[1; 2]; [3; 4]])%Q) eq_refl)).
    discriminate.
  - apply (proj2 (pointset_duplicate_roundtrip (XFlat []) (YCoords []) None
             (mkAnnot "POINTSET" "POINTS" []) eq_refl)).
    reflexivity.
Defined.



End AnnotExtras.

Module NdpaExtraFacts.
Import Ndpa NdpaFacts.

Lemma Qtrunc_proper (a b : Q) : a == b -> Qtrunc a = Qtrunc b.
Proof.
  destruct a as [na da], b as [nb db]. unfold Qeq, Qtrunc. simpl. intros E.
  rewrite <- (Z.quot_mul_cancel_r na (Zpos da) (Zpos db)) by discriminate.
  rewrite <- (Z.quot_mul_cancel_r nb (Zpos db) (Zpos da)) by discriminate.
  rewrite E, Z.mul_comm with (n := Zpos da). reflexivity.
Qed.

Lemma Qtrunc_div2 (q : Q) : Qtrunc (q / 2) = Z.quot (Qtrunc q) 2.
Proof.
  destruct q as [n d]. unfold Qtrunc, Qdiv, Qmult, Qinv. simpl.
  rewrite Z.mul_1_r, Z.quot_quot by discriminate. reflexivity.
Qed.

Lemma trunc_pixel_succ (phys : Q) (offset : Z) (mpp : Q) (extent level : Z) :
  trunc_pixel phys offset mpp extent (level + 1) =
  Z.quot (trunc_pixel phys offset mpp extent level) 2.
Proof.
  unfold trunc_pixel. rewrite <- Qtrunc_div2. apply Qtrunc_proper.
  assert (Hp : ~ Qpower 2 level == 0) by (apply Qpower_not_0; discriminate).
  assert (Hg : forall X, X / Qpower 2 (level + 1) == X / Qpower 2 level / 2).
  { intros X. rewrite Qpower_plus by discriminate. change (Qpower 2 1) with 2%Q.
    field. exact Hp. }
  apply Hg.
Qed.

Lemma pixel_of_succ (w : wsi_params) (level : Z) (p : Q * Q) :
  pixel_of w (level + 1) p =
  (Z.quot (fst (pixel_of w level p)) 2, Z.quot (snd (pixel_of w level p)) 2).
Proof. unfold pixel_of. simpl. rewrite !trunc_pixel_succ. reflexivity. Qed.

Lemma ndpa2xy_map (pts : list (Q * Q)) (level : Z) (w : wsi_params) :
  vendor w = "hamamatsu"%string -> level <= level_count w ->
  ~ x_mpp w == 0 -> ~ y_mpp w == 0 ->
  ndpa2xy pts level w =
    if existsb (fun '(x, y) => (x <? 0) || (y <? 0)) (map (pixel_of w level) pts)
    then Raise (CoreError "negative coordinates") else Ok (map (pixel_of w level) pts).
Proof.
  intros Hv Hl Hx Hy. unfold ndpa2xy. rewrite Hv. simpl negb. cbv iota.
  rewrite Z.gtb_ltb. replace (level_count w <? level) with false by (symmetry; apply Z.ltb_ge; lia).
  rewrite convert_all_map by assumption. reflexivity.
Qed.

End NdpaExtraFacts.

Module NdpaExtras.
Import Ndpa NdpaExtraFacts.

(** Going one level up the pyramid halves the pixel coordinates: when
    [ndpa2xy] returns the points [xy] at level [l] and [l + 1] is still a
    valid level, it returns at level [l + 1] every coordinate of [xy]
    divided by 2 (truncated), in the same order. *)
Theorem ndpa2xy_next_level (pts : list (Q * Q)) (level : Z) (w : wsi_params)
    (xy : list (Z * Z)) :
  vendor w = "hamamatsu"%string -> level + 1 <= level_count w ->
  ~ x_mpp w == 0 -> ~ y_mpp w == 0 ->
  ndpa2xy pts level w = Ok xy ->
  ndpa2xy pts (level + 1) w = Ok (map (fun '(x, y) => (Z.quot x 2, Z.quot y 2)) xy).
Proof.
  intros Hv Hl Hx Hy E.
  rewrite ndpa2xy_map in E by (assumption || lia).
  rewrite ndpa2xy_map by assumption.
  destruct (existsb _ (map (pixel_of w level) pts)) eqn:Eneg; [discriminate|].
  injection E as <-.
  assert (Hm : map (pixel_of w (level + 1)) pts =
               map (fun '(x, y) => (Z.quot x 2, Z.quot y 2)) (map (pixel_of w level) pts)).
  { rewrite map_map. apply map_ext. intros p. rewrite pixel_of_succ.
    destruct (pixel_of w level p). reflexivity. }
  rewrite Hm.
  replace (existsb _ (map (fun '(x, y) => (Z.quot x 2, Z.quot y 2)) (map (pixel_of w level) pts)))
    with false; [reflexivity|].
  symmetry. apply Bool.not_true_iff_false. intros Ht.
  apply existsb_exists in Ht as [[x' y'] [Hin Hneg]].
  apply in_map_iff in Hin as [[x y] [Exy Hin]]. injection Exy as <- <-.
  assert (Hnn : (x <? 0) || (y <? 0) = false).
  { apply Bool.not_true_iff_false. intros Ht. apply Bool.not_true_iff_false in Eneg.
    apply Eneg, existsb_exists. exists (x, y). split; assumption. }
  apply orb_false_iff in Hnn as [Hx0 Hy0]. apply Z.ltb_ge in Hx0, Hy0.
  apply orb_true_iff in Hneg as [H0|H0]; apply Z.ltb_lt in H0;
    [pose proof (Z.quot_pos x 2 Hx0 ltac:(lia)) | pose proof (Z.quot_pos y 2 Hy0 ltac:(lia))]; lia.
Qed.

Lemma ndpa2xy_next_level_witness :
  ndpa2xy [(1500, 2500); (3000, 4000)]%Q 2
    (mkParams "hamamatsu" 9 1000 2000 (1/4) (1/4) (mkLevel 4000 3000))
  = Ok (map (fun '(x, y) => (Z.quot x 2, Z.quot y 2)) [(1001, 751); (1004, 754)]).
Proof.
  apply (ndpa2xy_next_level _ 1 (mkParams "hamamatsu" 9 1000 2000 (1/4) (1/4) (mkLevel 4000 3000)));
    [reflexivity | vm_compute; discriminate | vm_compute; discriminate
    | vm_compute; discriminate | vm_compute; reflexivity].
Defined.

End NdpaExtras.

Module NdpaReadFacts.
Import NdpaRead.

Lemma dict_get_set_same {V} (k : string) (v : V) (d : dict V) :
  dict_get k (dict_set k v d) = Some v.
Proof.
  induction d as [|[k' v'] d IH]; simpl.
  - rewrite String.eqb_refl. reflexivity.
  - destruct (String.eqb k k') eqn:E; simpl.
    + rewrite String.eqb_refl. reflexivity.
    + rewrite E. exact IH.
Qed.

Lemma dict_get_set_other {V} (k k0 : string) (v : V) (d : dict V) :
  k0 <> k -> dict_get k0 (dict_set k v d) = dict_get k0 d.
Proof.
  intros Hne. induction d as [|[k' v'] d IH]; simpl.
  - apply String.eqb_neq in Hne. rewrite Hne. reflexivity.
  - destruct (String.eqb k k') eqn:E; simpl.
    + apply String.eqb_eq in E. subst k'. apply String.eqb_neq in Hne. rewrite Hne. reflexivity.
    + destruct (String.eqb k0 k'); [reflexivity|exact IH].
Qed.

(** the last annotation element with a given title *)
Fixpoint last_titled (t : string) (anns : list ndpa_ann) : option ndpa_ann :=
  match anns with
  | [] => None
  | a :: r =>
      match last_titled t r with
      | Some b => Some b
      | None => if String.eqb (title a) t then Some a else None
      end
  end.

(** [f] on each element in turn, stopping at the first exception *)
Fixpoint map_result {A B} (f : A -> result B) (l : list A) : result (list B) :=
  match l with
  | [] => Ok []
  | a :: l' => b <- f a ;; bs <- map_result f l' ;; Ok (b :: bs)
  end.

Section Readers.
Variable long_of : string -> result Z.

Lemma read_loop_get (anns : list ndpa_ann) :
  forall annot d, read_loop long_of anns annot = Ok d ->
  forall t,
    match last_titled t anns with
    | Some a => exists l, components long_of a = Ok l /\ dict_get t d = Some l
    | None => dict_get t d = dict_get t annot
    end.
Proof.
  induction anns as [|ann anns IH]; intros annot d E t; simpl in *.
  - injection E as <-. reflexivity.
  - set (annot1 := dict_set (title ann) [] annot) in E.
    assert (Hstep : exists annot' l, read_loop long_of anns annot' = Ok d /\
              components long_of ann = Ok l /\
              dict_get (title ann) annot' = Some l /\
              forall t0, t0 <> title ann -> dict_get t0 annot' = dict_get t0 annot).
    { unfold components. destruct (annotation ann) as [[p|]|].
      - destruct (read_points long_of p) as [pts|e] eqn:Ep; simpl in E; [|discriminate].
        unfold annot1 in E. rewrite dict_get_set_same in E. simpl in E.
        exists (dict_set (title ann) [pts] (dict_set (title ann) [] annot)), [pts].
        split; [exact E|]. split; [reflexivity|].
        split; [apply dict_get_set_same|].
        intros t0 Ht0. rewrite !dict_get_set_other by exact Ht0. reflexivity.
      - exists annot1, []. split; [exact E|]. split; [reflexivity|].
        split; [apply dict_get_set_same|].
        intros t0 Ht0. apply dict_get_set_other, Ht0.
      - exists annot1, []. split; [exact E|]. split; [reflexivity|].
        split; [apply dict_get_set_same|].
        intros t0 Ht0. apply dict_get_set_other, Ht0. }
    destruct Hstep as [annot' [l [E' [Hc [Hget Hoth]]]]].
    specialize (IH annot' d E' t).
    destruct (last_titled t anns) as [b|]; [exact IH|].
    rewrite IH. destruct (String.eqb_spec (title ann) t) as [<-|Hne].
    + exists l. split; assumption.
    + apply Hoth. intros E0. apply Hne. symmetry. exact E0.
Qed.

Lemma single_loop_eq (t : string) (anns : list ndpa_ann) :
  forall acc,
  single_loop long_of t anns acc =
    (cs <- map_result (components long_of)
             (filter (fun a => String.eqb (title a) t) anns) ;;
     Ok (acc ++ concat cs)).
Proof.
  induction anns as [|ann anns IH]; intros acc; simpl.
  - rewrite app_nil_r. reflexivity.
  - destruct (String.eqb (title ann) t); simpl; [|apply IH].
    unfold components. destruct (annotation ann) as [[p|]|]; simpl.
    + destruct (read_points long_of p) as [pts|e]; simpl; [|reflexivity].
      rewrite IH. destruct (map_result _ _) as [cs|e]; simpl; [|reflexivity].
      rewrite <- app_assoc. reflexivity.
    + rewrite IH. destruct (map_result _ _); reflexivity.
    + rewrite IH. destruct (map_result _ _); reflexivity.
Qed.

End Readers.

End NdpaReadFacts.

Module NdpaReadExtras.
Import NdpaRead NdpaReadFacts.
Local Open Scope string_scope.

(** [ndpa_read] keeps one entry per title, for the last annotation element
    with that title only: its value is that element's components (an empty
    list without an [annotation] or [pointlist], else its one point list);
    the components of earlier elements with the same title are dropped, and
    a title absent from the file has no key. *)
Theorem ndpa_read_last_wins (long_of : string -> result Z) (root : list ndpa_ann)
    (d : dict (list (list (Z * Z)))) (t : string) :
  ndpa_read long_of root = Ok d ->
  match last_titled t root with
  | Some a => exists l, components long_of a = Ok l /\ dict_get t d = Some l
  | None => dict_get t d = None
  end.
Proof.
  intros E. exact (read_loop_get long_of root [] d E t).
Qed.

Lemma ndpa_read_last_wins_witness :
  exists l,
    components long_dec (mkNdpaAnn "tumor" (Some (Some [("30", "40"); ("31", " 42")]))) = Ok l /\
    dict_get "tumor"
      [("tumor", [[(30, 40); (31, 42)]]); ("stroma", [])]%string = Some l.
Proof.
  apply (ndpa_read_last_wins long_dec
           [mkNdpaAnn "tumor" (Some (Some [("10", "20"); ("11", "-22")]));
            mkNdpaAnn "stroma" None;
            mkNdpaAnn "tumor" (Some (Some [("30", "40"); ("31", " 42")]))]%string
           [("tumor", [[(30, 40); (31, 42)]]); ("stroma", [])]%string "tumor"%string).
  vm_compute. reflexivity.
Defined.

(** [ndpa_read_single(root, t)] collects the components of every annotation
    element titled [t], in file order, and returns [None] when there is
    none; a point text [long] cannot read raises, but only in an element
    titled [t]. *)
Theorem ndpa_read_single_all (long_of : string -> result Z) (root : list ndpa_ann)
    (t : string) :
  ndpa_read_single long_of root t =
    (cs <- map_result (components long_of)
             (filter (fun a => String.eqb (title a) t) root) ;;
     match concat cs with [] => Ok None | l => Ok (Some l) end).
Proof.
  unfold ndpa_read_single. rewrite single_loop_eq.
  destruct (map_result _ _) as [cs|e]; simpl; [|reflexivity].
  destruct (concat cs); reflexivity.
Qed.

End NdpaReadExtras.



Module AsapReadFacts.
Import Annot AsapRead.





Section Reader.
Variable int_of : string -> result Z.
Variable float_of : string -> result Q.


End Reader.

End AsapReadFacts.

Module AsapReadExtras.
Import Annot AsapRead AsapReadFacts.
Local Open Scope string_scope.





End AsapReadExtras.

Module ApplyMaskFacts.
Import ApplyMask.

(** ** [mapi] *)

Lemma mapi_shift {A B} (f : nat -> A -> B) (s : nat) (l : list A) :
  map (fun '(i, x) => f i x) (combine (seq (S s) (length l)) l) =
  map (fun '(i, x) => f (S i) x) (combine (seq s (length l)) l).
Proof. revert s. induction l as [|x l IH]; intros s; simpl; [reflexivity|]. f_equal. apply IH. Qed.

Lemma mapi_nil {A B} (f : nat -> A -> B) : mapi f [] = [].
Proof. reflexivity. Qed.

Lemma mapi_cons {A B} (f : nat -> A -> B) (x : A) (l : list A) :
  mapi f (x :: l) = f 0%nat x :: mapi (fun i => f (S i)) l.
Proof. unfold mapi. simpl. f_equal. apply mapi_shift. Qed.

Lemma length_mapi {A B} (f : nat -> A -> B) (l : list A) : length (mapi f l) = length l.
Proof. unfold mapi. rewrite length_map, length_combine, length_seq. lia. Qed.

Lemma nth_error_mapi {A B} (f : nat -> A -> B) (l : list A) (i : nat) :
  nth_error (mapi f l) i = option_map (f i) (nth_error l i).
Proof.
  revert f i. induction l as [|x l IH]; intros f i; [destruct i; reflexivity|].
  rewrite mapi_cons. destruct i as [|i]; simpl; [reflexivity|]. apply (IH (fun i => f (S i))).
Qed.

Lemma mapi_ext_in {A B} (f g : nat -> A -> B) (l : list A) :
  (forall i x, In x l -> f i x = g i x) -> mapi f l = mapi g l.
Proof.
  revert f g. induction l as [|x l IH]; intros f g H; [reflexivity|].
  rewrite !mapi_cons. f_equal; [apply H; left; reflexivity|].
  apply IH. intros i y Hy. apply H. right. exact Hy.
Qed.

Lemma mapi_mapi {A B C} (f : nat -> B -> C) (g : nat -> A -> B) (l : list A) :
  mapi f (mapi g l) = mapi (fun i x => f i (g i x)) l.
Proof.
  revert f g. induction l as [|x l IH]; intros f g; [reflexivity|].
  rewrite !mapi_cons. f_equal. apply (IH (fun i => f (S i)) (fun i => g (S i))).
Qed.

Lemma mapi_map {A B C} (f : nat -> B -> C) (g : A -> B) (l : list A) :
  mapi f (map g l) = mapi (fun i x => f i (g x)) l.
Proof.
  revert f. induction l as [|x l IH]; intros f; [reflexivity|].
  simpl map. rewrite !mapi_cons. f_equal. apply (IH (fun i => f (S i))).
Qed.

Lemma map2_mapi {A B C} (f : A -> B -> C) (g : nat -> A -> B) (l : list A) :
  map2 f l (mapi g l) = mapi (fun i x => f x (g i x)) l.
Proof.
  revert g. induction l as [|x l IH]; intros g; [reflexivity|].
  rewrite !mapi_cons. unfold map2 in *. simpl. f_equal. apply (IH (fun i => g (S i))).
Qed.

(** a 2-D [mapi] *)
Definition mapi2 {A B} (G : nat -> nat -> A -> B) (a : list (list A)) : list (list B) :=
  mapi (fun i row => mapi (G i) row) a.

Lemma at2_mapi2 {A B} (G : nat -> nat -> A -> B) (a : list (list A)) (i j : nat) :
  at2 (mapi2 G a) i j = option_map (G i j) (at2 a i j).
Proof.
  unfold at2, mapi2. rewrite nth_error_mapi.
  destruct (nth_error a i) as [row|]; simpl; [|reflexivity]. apply nth_error_mapi.
Qed.

Lemma shape2d_mapi2 {A B} (G : nat -> nat -> A -> B) (a : list (list A)) :
  shape2d (mapi2 G a) = shape2d a.
Proof.
  unfold shape2d, mapi2. rewrite length_mapi. destruct a as [|r a]; [reflexivity|].
  rewrite mapi_cons, length_mapi. reflexivity.
Qed.

Lemma rect2_mapi2 {A B} (G : nat -> nat -> A -> B) (a : list (list A)) :
  rect2 a -> rect2 (mapi2 G a).
Proof.
  unfold rect2. rewrite shape2d_mapi2. intros H. unfold mapi2, mapi.
  apply Forall_map. apply Forall_forall. intros [i row] Hin.
  apply in_combine_r in Hin. rewrite Forall_forall in H.
  rewrite length_map, length_combine, length_seq, Nat.min_id. apply H, Hin.
Qed.

Lemma mapi2_mapi2 {A B C} (F : nat -> nat -> B -> C) (G : nat -> nat -> A -> B) a :
  mapi2 F (mapi2 G a) = mapi2 (fun i j x => F i j (G i j x)) a.
Proof.
  unfold mapi2. rewrite mapi_mapi. apply mapi_ext_in. intros i row _. apply mapi_mapi.
Qed.

(** ** [a *= mask] on 2-D arrays *)

Lemma mul_plane_mapi2 (d md : dtype) a m :
  mul_plane d md a m = mapi2 (fun i j x => imul_elem d md x (mask_at m i j)) a.
Proof. reflexivity. Qed.

Lemma fits_compat (n k : nat) : fits_out n k = true -> bcast_compat n k = true.
Proof.
  unfold fits_out, bcast_compat. intros H.
  apply orb_true_iff in H as [H|H]; apply Nat.eqb_eq in H; subst;
    rewrite ?Nat.eqb_refl, ?orb_true_r; reflexivity.
Qed.

(** the mask fits the planes of shape [s] *)
Definition fits (s : nat * nat) (m : list (list Z)) : bool :=
  fits_out (fst s) (fst (shape2d m)) && fits_out (snd s) (snd (shape2d m)).

Lemma imul2_ok (d md : dtype) a m :
  same_kind (promote d md) d = true -> fits (shape2d a) m = true ->
  imul2 d md a m = Ok (mul_plane d md a m).
Proof.
  intros Hk Hf. unfold imul2. rewrite Hk. simpl negb. cbv iota.
  unfold fits in Hf. destruct (shape2d a) as [H W], (shape2d m) as [h w]. simpl in Hf.
  apply andb_true_iff in Hf as [F1 F2].
  rewrite (fits_compat _ _ F1), (fits_compat _ _ F2), F1, F2. reflexivity.
Qed.

Lemma imul2_type_error (d md : dtype) a m :
  same_kind (promote d md) d = false -> exists msg, imul2 d md a m = Raise (TypeError msg).
Proof. intros Hk. unfold imul2. rewrite Hk. eexists. reflexivity. Qed.

Lemma imul2_value_error (d md : dtype) a m :
  same_kind (promote d md) d = true -> fits (shape2d a) m = false ->
  exists msg, imul2 d md a m = Raise (ValueError msg).
Proof.
  intros Hk Hf. unfold imul2. rewrite Hk. simpl negb. cbv iota.
  unfold fits in Hf. destruct (shape2d a) as [H W], (shape2d m) as [h w]. simpl in Hf.
  destruct (bcast_compat H h && bcast_compat W w); simpl; [|eexists; reflexivity].
  rewrite Hf. eexists. reflexivity.
Qed.

Lemma mask_at_at2 (m : list (list Z)) (i j : nat) (v : Z) :
  rect2 m -> at2 m i j = Some v -> mask_at m i j = v.
Proof.
  unfold rect2, at2, mask_at. intros Hr Hv.
  destruct (nth_error m i) as [row|] eqn:Er; [|discriminate].
  assert (Hi : (i < length m)%nat) by (apply nth_error_Some; congruence).
  assert (Hj : (j < length row)%nat) by (apply nth_error_Some; congruence).
  assert (Lr : length row = snd (shape2d m)).
  { rewrite Forall_forall in Hr. apply Hr. eapply nth_error_In. exact Er. }
  destruct (shape2d m) as [h w] eqn:Es. simpl in Lr.
  assert (Hh : h = length m) by (unfold shape2d in Es; congruence).
  assert (Bi : bidx h i = i) by (unfold bidx; destruct (Nat.eqb_spec h 1); lia).
  assert (Bj : bidx w j = j) by (unfold bidx; destruct (Nat.eqb_spec w 1); lia).
  rewrite Bi, Bj. rewrite (nth_error_nth' m [] Hi) in Er. injection Er as Er.
  rewrite Er. apply nth_error_nth. exact Hv.
Qed.

(** ** [mask[mask > 0] = 1] *)

Definition clamp1 (v : Z) : Z := if 0 <? v then 1 else v.

Lemma at2_clamp (a : list (list Z)) (i j : nat) :
  at2 (clamp a) i j = option_map clamp1 (at2 a i j).
Proof.
  unfold at2, clamp. rewrite nth_error_map.
  destruct (nth_error a i) as [r|]; simpl; [|reflexivity].
  apply nth_error_map.
Qed.

Lemma shape2d_clamp (a : list (list Z)) : shape2d (clamp a) = shape2d a.
Proof. unfold shape2d, clamp. rewrite length_map. destruct a; simpl; [|rewrite length_map]; reflexivity. Qed.

Lemma rect2_clamp (a : list (list Z)) : rect2 a -> rect2 (clamp a).
Proof.
  unfold rect2. rewrite shape2d_clamp. intros H. unfold clamp. apply Forall_map.
  eapply Forall_impl; [|exact H]. intros r Hr. simpl. rewrite length_map. exact Hr.
Qed.

Lemma clamp_idem (a : list (list Z)) : clamp (clamp a) = clamp a.
Proof.
  unfold clamp. rewrite map_map. apply map_ext. intros r. rewrite map_map.
  apply map_ext. intros v. destruct (Z.ltb_spec 0 v); simpl; [reflexivity|].
  destruct (Z.ltb_spec 0 v); [lia|reflexivity].
Qed.

End ApplyMaskFacts.

Module ApplyMaskImage.
Import ApplyMask ApplyMaskFacts.

Lemma mapi_id {A} (f : nat -> A -> A) (l : list A) :
  (forall i x, f i x = x) -> mapi f l = l.
Proof.
  revert f. induction l as [|x l IH]; intros f H; [reflexivity|].
  rewrite mapi_cons, H. f_equal. apply IH. intros i y. apply H.
Qed.

Lemma in_mapi {A B} (f : nat -> A -> B) (l : list A) (y : B) :
  In y (mapi f l) -> exists i x, In x l /\ y = f i x.
Proof.
  revert f. induction l as [|x l IH]; intros f H; [destruct H|].
  rewrite mapi_cons in H. destruct H as [H|H].
  - exists 0%nat, x. split; [left; reflexivity|symmetry; exact H].
  - destruct (IH _ H) as [i [z [Hz E]]]. exists (S i), z. split; [right; exact Hz|exact E].
Qed.

Lemma Forall_mapi2 {A B} (P : B -> Prop) (G : nat -> nat -> A -> B) (a : list (list A)) :
  (forall i j row x, In row a -> In x row -> P (G i j x)) -> Forall (Forall P) (mapi2 G a).
Proof.
  intros H. apply Forall_forall. intros r Hr. unfold mapi2 in Hr.
  apply in_mapi in Hr as [i [row [Hrow ->]]].
  apply Forall_forall. intros y Hy. apply in_mapi in Hy as [j [x [Hx ->]]].
  eapply H; eassumption.
Qed.

Lemma fold_mapi2 {A} (G : nat -> nat -> nat -> A -> A) (ks : list nat) (a : list (list A)) :
  fold_left (fun a k => mapi2 (G k) a) ks a =
  mapi2 (fun i j p => fold_left (fun p k => G k i j p) ks p) a.
Proof.
  revert a. induction ks as [|k ks IH]; intros a; simpl.
  - unfold mapi2. symmetry. apply mapi_id. intros i row. apply mapi_id. reflexivity.
  - rewrite IH, mapi2_mapi2. reflexivity.
Qed.

Lemma fold_left_ext_in {A B} (f g : A -> B -> A) (l : list B) (a : A) :
  (forall x b, f x b = g x b) -> fold_left f l a = fold_left g l a.
Proof. intros H. revert a. induction l as [|b l IH]; intros a; simpl; [reflexivity|]. rewrite H. apply IH. Qed.

(** ** The channel loop *)

Lemma shape2d_channel (k : nat) (px : list (list (list num))) :
  shape2d (channel k px) = shape2d px.
Proof. unfold shape2d, channel. rewrite length_map. destruct px; simpl; [|rewrite length_map]; reflexivity. Qed.

Lemma channel_step (d md : dtype) (m : list (list Z)) (k : nat) (px : list (list (list num))) :
  set_channel k px (mul_plane d md (channel k px) m) =
  mapi2 (fun i j p => set_nth k (imul_elem d md (nth k p NNaN) (mask_at m i j)) p) px.
Proof.
  unfold set_channel, mul_plane, mapi2, channel. rewrite mapi_map, map2_mapi.
  apply mapi_ext_in. intros i row _. rewrite mapi_map, map2_mapi. reflexivity.
Qed.

Lemma fold3_ok (d md : dtype) (m : list (list Z)) (ks : list nat) :
  same_kind (promote d md) d = true ->
  forall px, fits (shape2d px) m = true ->
  fold_result (fun im k => mul_channel d md k im m) ks px =
  Ok (fold_left (fun im k => set_channel k im (mul_plane d md (channel k im) m)) ks px).
Proof.
  intros Hk. induction ks as [|k ks IH]; intros px Hf; [reflexivity|].
  simpl. unfold mul_channel. rewrite imul2_ok by (rewrite ?shape2d_channel; assumption).
  simpl. apply IH. rewrite channel_step, shape2d_mapi2. exact Hf.
Qed.

Lemma set_nth_firstn {A} (k : nat) (v : A) (p : list A) :
  (k < length p)%nat ->
  firstn (S k) (set_nth k v p) = firstn k p ++ [v] /\
  skipn (S k) (set_nth k v p) = skipn (S k) p /\
  length (set_nth k v p) = length p.
Proof.
  intros Hk. unfold set_nth.
  assert (Lf : length (firstn k p) = k) by (rewrite length_firstn; lia).
  split; [|split].
  - rewrite firstn_app, Lf. replace (S k - k)%nat with 1%nat by lia.
    rewrite firstn_all2 by (simpl; lia). reflexivity.
  - rewrite skipn_app, Lf. rewrite skipn_all2 by lia.
    replace (S k - k)%nat with 1%nat by lia. reflexivity.
  - rewrite !length_app, Lf, length_skipn. simpl. lia.
Qed.

Lemma skipn_nth_cons {A} (s : nat) (p : list A) (dflt : A) :
  (s < length p)%nat -> skipn s p = nth s p dflt :: skipn (S s) p.
Proof.
  revert p. induction s as [|s IH]; intros [|a p] H; simpl in *; try lia; [reflexivity|].
  apply IH. lia.
Qed.

(** The channel loop over channels [s, s+1, ...] of one pixel applies [F]
    to each of them once. *)
Lemma channel_loop_pixel {A} (F : A -> A) (dflt : A) (n s : nat) (p : list A) :
  (s + n)%nat = length p ->
  fold_left (fun p k => set_nth k (F (nth k p dflt)) p) (seq s n) p =
  firstn s p ++ map F (skipn s p).
Proof.
  revert s p. induction n as [|n IH]; intros s p Hl; simpl.
  - rewrite skipn_all2 by lia. rewrite firstn_all2 by lia. rewrite app_nil_r. reflexivity.
  - destruct (set_nth_firstn s (F (nth s p dflt)) p ltac:(lia)) as [F1 [S1 L1]].
    rewrite IH by (rewrite L1; lia). rewrite F1, S1.
    rewrite (skipn_nth_cons s p dflt) by lia. simpl map.
    rewrite <- app_assoc. reflexivity.
Qed.

(** the 3-D result: every channel of a pixel multiplied by the mask value *)
Lemma fold3_pixels (d md : dtype) (m : list (list Z)) (px : list (list (list num))) :
  Forall (Forall (fun p => length p = shape2 px)) px ->
  fold_left (fun im k => set_channel k im (mul_plane d md (channel k im) m))
    (seq 0 (shape2 px)) px =
  mapi2 (fun i j p => map (fun x => imul_elem d md x (mask_at m i j)) p) px.
Proof.
  intros Hl.
  rewrite (fold_left_ext_in _ (fun a k => mapi2 (fun i j p =>
              set_nth k (imul_elem d md (nth k p NNaN) (mask_at m i j)) p) a))
    by (intros; apply channel_step).
  rewrite (fold_mapi2 (fun k i j p => set_nth k (imul_elem d md (nth k p NNaN) (mask_at m i j)) p)).
  unfold mapi2. apply mapi_ext_in. intros i row Hrow. apply mapi_ext_in. intros j p Hp.
  rewrite (channel_loop_pixel (fun x => imul_elem d md x (mask_at m i j)) NNaN).
  - reflexivity.
  - simpl. rewrite Forall_forall in Hl. specialize (Hl row Hrow).
    rewrite Forall_forall in Hl. symmetry. exact (Hl p Hp).
Qed.

(** ** The outcome of [apply_mask] *)

(** the image [apply_mask] returns when the multiplications succeed *)
Definition masked (img : image) (md : dtype) (m : list (list Z)) : image :=
  match img with
  | NdArray2 d px => NdArray2 d (mul_plane d md px m)
  | NdArray3 d px =>
      NdArray3 d (fold_left (fun im k => set_channel k im (mul_plane d md (channel k im) m))
                   (seq 0 (shape2 px)) px)
  | VigraArray d planes => VigraArray d (map (fun c => mul_plane d md c m) planes)
  end.

Lemma each_ok {A} (f : A -> result A) (g : A -> A) (l : list A) :
  (forall c, In c l -> f c = Ok (g c)) -> each f l = Ok (map g l).
Proof.
  induction l as [|c l IH]; intros H; [reflexivity|]. simpl.
  rewrite (H c (or_introl eq_refl)). simpl.
  rewrite IH by (intros; apply H; right; assumption). reflexivity.
Qed.

Lemma fits_clamp (s : nat * nat) (a : list (list Z)) : fits s (clamp a) = fits s a.
Proof. unfold fits. rewrite shape2d_clamp. reflexivity. Qed.

Definition kind_ok (img : image) (mask : ndarray2) : bool :=
  same_kind (promote (img_dtype img) (dt mask)) (img_dtype img).

Lemma apply_mask_ok (img : image) (mask : ndarray2) :
  shaped img ->
  channels img = 0%nat \/ (kind_ok img mask = true /\ fits (plane_shape img) (data mask) = true) ->
  fst (apply_mask img mask) = Ok (masked img (dt mask) (clamp (data mask))).
Proof.
  intros Hs Hc. unfold kind_ok in Hc.
  destruct img as [d px|d px|d planes]; simpl in *.
  - destruct Hc as [Hc|[Hk Hf]]; [discriminate|].
    rewrite imul2_ok by (rewrite ?fits_clamp; assumption). reflexivity.
  - destruct Hc as [Hc|[Hk Hf]].
    + rewrite Hc. reflexivity.
    + rewrite fold3_ok by (rewrite ?fits_clamp; assumption). reflexivity.
  - destruct Hc as [Hc|[Hk Hf]].
    + destruct planes; [reflexivity|discriminate].
    + rewrite (each_ok _ (fun c => mul_plane d (dt mask) c (clamp (data mask)))); [reflexivity|].
      intros c Hin. apply imul2_ok; [exact Hk|]. rewrite fits_clamp.
      rewrite Forall_forall in Hs. destruct (Hs c Hin) as [_ ->]. exact Hf.
Qed.

Lemma apply_mask_type_error (img : image) (mask : ndarray2) :
  (0 < channels img)%nat -> kind_ok img mask = false ->
  exists msg, fst (apply_mask img mask) = Raise (TypeError msg).
Proof.
  intros Hc Hk. unfold kind_ok in Hk.
  destruct img as [d px|d px|d planes]; simpl in *.
  - destruct (imul2_type_error d (dt mask) px (clamp (data mask)) Hk) as [msg E].
    exists msg. rewrite E. reflexivity.
  - destruct (shape2 px) as [|n]; [lia|]. simpl. unfold mul_channel.
    destruct (imul2_type_error d (dt mask) (channel 0 px) (clamp (data mask)) Hk) as [msg E].
    exists msg. rewrite E. reflexivity.
  - destruct planes as [|c planes]; simpl in Hc; [lia|]. simpl.
    destruct (imul2_type_error d (dt mask) c (clamp (data mask)) Hk) as [msg E].
    exists msg. rewrite E. reflexivity.
Qed.

Lemma apply_mask_value_error (img : image) (mask : ndarray2) :
  (0 < channels img)%nat -> kind_ok img mask = true ->
  fits (plane_shape img) (data mask) = false ->
  exists msg, fst (apply_mask img mask) = Raise (ValueError msg).
Proof.
  intros Hc Hk Hf. unfold kind_ok in Hk. rewrite <- fits_clamp in Hf.
  destruct img as [d px|d px|d planes]; simpl in *.
  - destruct (imul2_value_error d (dt mask) px (clamp (data mask)) Hk Hf) as [msg E].
    exists msg. rewrite E. reflexivity.
  - destruct (shape2 px) as [|n]; [lia|]. simpl. unfold mul_channel.
    rewrite <- (shape2d_channel 0) in Hf.
    destruct (imul2_value_error d (dt mask) (channel 0 px) (clamp (data mask)) Hk Hf) as [msg E].
    exists msg. rewrite E. reflexivity.
  - destruct planes as [|c planes]; simpl in Hc; [lia|]. simpl.
    destruct (imul2_value_error d (dt mask) c (clamp (data mask)) Hk Hf) as [msg E].
    exists msg. rewrite E. reflexivity.
Qed.

Lemma apply_mask_ok_inv (img img' : image) (mask : ndarray2) :
  shaped img -> fst (apply_mask img mask) = Ok img' ->
  img' = masked img (dt mask) (clamp (data mask)) /\
  (channels img = 0%nat \/ (kind_ok img mask = true /\ fits (plane_shape img) (data mask) = true)).
Proof.
  intros Hs H.
  assert (Hc : channels img = 0%nat \/
               (kind_ok img mask = true /\ fits (plane_shape img) (data mask) = true)).
  { destruct (Nat.eq_dec (channels img) 0) as [E|E]; [left; exact E|right].
    destruct (kind_ok img mask) eqn:Hk.
    - destruct (fits (plane_shape img) (data mask)) eqn:Hf; [split; reflexivity|].
      destruct (apply_mask_value_error img mask ltac:(lia) Hk Hf) as [msg E'].
      congruence.
    - destruct (apply_mask_type_error img mask ltac:(lia) Hk) as [msg E']. congruence. }
  split; [|exact Hc]. rewrite (apply_mask_ok img mask Hs Hc) in H. congruence.
Qed.

(** ** The pixels of the result *)

Lemma value_masked (img : image) (md : dtype) (m : list (list Z)) (i j k : nat) (mv : Z) :
  shaped img -> rect2 m -> at2 m i j = Some mv ->
  value (masked img md m) i j k =
  option_map (fun v => imul_elem (img_dtype img) md v mv) (value img i j k).
Proof.
  intros Hs Hr Hm. pose proof (mask_at_at2 m i j mv Hr Hm) as Hma.
  destruct img as [d px|d px|d planes]; simpl in *.
  - destruct (k =? 0)%nat; [|reflexivity].
    rewrite mul_plane_mapi2, at2_mapi2, Hma. reflexivity.
  - destruct Hs as [_ Hl]. rewrite fold3_pixels by exact Hl. rewrite at2_mapi2.
    destruct (at2 px i j) as [p|]; simpl; [|reflexivity].
    rewrite nth_error_map, Hma. reflexivity.
  - rewrite nth_error_map. destruct (nth_error planes k) as [c|]; simpl; [|reflexivity].
    rewrite mul_plane_mapi2, at2_mapi2, Hma. reflexivity.
Qed.

Lemma masked_dtype (img : image) (md : dtype) (m : list (list Z)) :
  img_dtype (masked img md m) = img_dtype img.
Proof. destruct img; reflexivity. Qed.

Lemma masked_shape (img : image) (md : dtype) (m : list (list Z)) :
  shaped img ->
  shaped (masked img md m) /\ channels (masked img md m) = channels img /\
  plane_shape (masked img md m) = plane_shape img.
Proof.
  intros Hs. destruct img as [d px|d px|d planes]; simpl in *.
  - rewrite mul_plane_mapi2, shape2d_mapi2. split; [apply rect2_mapi2; exact Hs|].
    split; reflexivity.
  - destruct Hs as [Hr Hl]. rewrite fold3_pixels by exact Hl.
    set (G := fun i j (p : list num) => map (fun x => imul_elem d md x (mask_at m i j)) p).
    assert (S2 : shape2 (mapi2 G px) = shape2 px).
    { destruct px as [|[|p0 r] rows]; [reflexivity|reflexivity|].
      unfold mapi2. rewrite !mapi_cons. simpl. unfold G. rewrite length_map. reflexivity. }
    rewrite S2, shape2d_mapi2. split; [split|split; reflexivity].
    + apply rect2_mapi2. exact Hr.
    + apply Forall_mapi2. intros i j row x Hrow Hx. unfold G. rewrite length_map.
      rewrite Forall_forall in Hl. specialize (Hl row Hrow).
      rewrite Forall_forall in Hl. exact (Hl x Hx).
  - rewrite length_map.
    assert (P : match map (fun c => mul_plane d md c m) planes with
                | c :: _ => shape2d c | [] => (0, 0)%nat end =
                match planes with c :: _ => shape2d c | [] => (0, 0)%nat end).
    { destruct planes as [|c planes]; [reflexivity|]. simpl.
      rewrite mul_plane_mapi2, shape2d_mapi2. reflexivity. }
    rewrite P. split; [|split; reflexivity].
    apply Forall_map. eapply Forall_impl; [|exact Hs]. intros c [Hr Hc].
    rewrite mul_plane_mapi2, shape2d_mapi2. split; [apply rect2_mapi2; exact Hr|exact Hc].
Qed.

End ApplyMaskImage.

Module ApplyMaskElem.
Import ApplyMask ApplyMaskFacts ApplyMaskImage.

#[local] Arguments wrap : simpl never.
#[local] Arguments round : simpl never.

Lemma wrap32_64 (z : Z) : wrap 32 true z = z -> wrap 64 true z = z.
Proof.
  unfold wrap. change (2 ^ 32 / 2) with 2147483648. change (2 ^ 32) with 4294967296.
  change (2 ^ 64 / 2) with 9223372036854775808. change (2 ^ 64) with 18446744073709551616.
  intros H. pose proof (Z.mod_pos_bound (z + 2147483648) 4294967296 ltac:(lia)) as B.
  rewrite Z.mod_small; lia.
Qed.

Lemma normalize_exp (x e k' e' : Z) : normalize x e = NFloat k' e' -> x <> 0 -> e <= e'.
Proof.
  unfold normalize. intros H Hx. apply Z.eqb_neq in Hx. rewrite Hx in H.
  injection H as _ <-. pose proof (Z.log2_nonneg (Z.land x (- x))). lia.
Qed.

(** a binary32 number is a binary64 number *)
Lemma round32_64 (k e : Z) : round binary32 k e = NFloat k e -> round binary64 k e = NFloat k e.
Proof.
  unfold round. cbn [prec emin emax binary32 binary64]. intros H.
  destruct (k =? 0) eqn:Hk; [exact H|]. apply Z.eqb_neq in Hk.
  pose proof (Z.log2_nonneg (Z.abs k)).
  destruct (Z.max (Z.log2 (Z.abs k) + e - (24 - 1)) (-149) <=? e) eqn:Hu.
  - apply Z.leb_le in Hu.
    destruct (Z.abs k =? 0) eqn:Ha; [injection H as Hk0 _; lia|].
    destruct (127 <? Z.log2 (Z.abs k) + e) eqn:Ho; [discriminate|].
    apply Z.ltb_ge in Ho.
    rewrite (proj2 (Z.leb_le _ _)) by lia.
    rewrite Ha, (proj2 (Z.ltb_ge 1023 _)) by lia. exact H.
  - exfalso. apply Z.leb_gt in Hu.
    set (u := Z.max (Z.log2 (Z.abs k) + e - (24 - 1)) (-149)) in *.
    destruct (shr_rne (Z.abs k) (u - e) =? 0) eqn:Hs.
    + injection H as Hk0 _. lia.
    + destruct (127 <? _); [discriminate|].
      apply normalize_exp in H; [lia|].
      apply Z.eqb_neq in Hs. intros E. apply Z.mul_eq_0 in E as [E|E]; [|lia].
      apply Z.sgn_null_iff in E. lia.
Qed.

Lemma valid_float (f : fmt) (k e : Z) :
  match round f k e with NFloat k' e' => (k' =? k) && (e' =? e) | _ => false end = true ->
  round f k e = NFloat k e.
Proof.
  destruct (round f k e); try discriminate.
  intros H. apply andb_true_iff in H as [H1 H2].
  apply Z.eqb_eq in H1, H2. subst. reflexivity.
Qed.

Definition kinds_ok (d md : dtype) : bool := same_kind (promote d md) d.

Ltac dtype_cases d md Hk :=
  destruct d, md; unfold kinds_ok in Hk; cbn in Hk; try discriminate.

(** a value of [d] is a value of the loop dtype, unchanged by the cast to it *)
Lemma valid_promote (d md : dtype) (v : num) :
  kinds_ok d md = true -> valid d v = true ->
  valid (promote d md) v = true /\ cast (promote d md) v = v.
Proof.
  intros Hk Hv. dtype_cases d md Hk; destruct v as [z|k e|s|]; cbn in Hv; try discriminate;
    cbn [promote valid cast to_float]; try (split; [assumption|reflexivity]);
    try (apply Z.eqb_eq in Hv; rewrite Hv; split; [apply Z.eqb_refl|reflexivity]);
    try (split; reflexivity).
  all: first
    [ apply Z.eqb_eq, wrap32_64 in Hv; rewrite Hv; split; [apply Z.eqb_refl|reflexivity]
    | match goal with
      | Hv : match round binary32 _ _ with _ => _ end = true |- context [round binary64] =>
          apply valid_float, round32_64 in Hv
      | Hv : match round _ _ _ with _ => _ end = true |- _ => apply valid_float in Hv
      end;
      rewrite Hv, !Z.eqb_refl; split; reflexivity ].
Qed.

Lemma cast_valid (d : dtype) (v : num) : valid d v = true -> cast d v = v.
Proof.
  intros Hv. assert (Hk : kinds_ok d Bool_ = true) by (destruct d; reflexivity).
  destruct (valid_promote d Bool_ v Hk Hv) as [_ Hc].
  replace (promote d Bool_) with d in Hc by (destruct d; reflexivity). exact Hc.
Qed.

Ltac unit_casts :=
  try change (wrap 8 false 1) with 1 in *; try change (wrap 32 true 1) with 1 in *;
  try change (wrap 64 true 1) with 1 in *; try change (wrap 8 false 0) with 0 in *;
  try change (wrap 32 true 0) with 0 in *; try change (wrap 64 true 0) with 0 in *;
  try change (round binary32 1 0) with (NFloat 1 0) in *;
  try change (round binary64 1 0) with (NFloat 1 0) in *;
  try change (round binary32 0 0) with (NFloat 0 0) in *;
  try change (round binary64 0 0) with (NFloat 0 0) in *.

(** the loop multiplies a value of its dtype by one ... *)
Lemma mul_one (r : dtype) (v : num) : valid r v = true -> mul_in r v (cast r (NInt 1)) = v.
Proof.
  intros Hv. destruct r, v as [z|k e|s|]; cbn in Hv; try discriminate;
    cbn [mul_in cast to_float float_mul]; unit_casts; cbn [float_mul].
  - apply orb_true_iff in Hv as [Hz|Hz]; apply Z.eqb_eq in Hz; subst; reflexivity.
  - rewrite Z.mul_1_r. apply Z.eqb_eq in Hv. rewrite Hv. reflexivity.
  - rewrite Z.mul_1_r. apply Z.eqb_eq in Hv. rewrite Hv. reflexivity.
  - rewrite Z.mul_1_r. apply Z.eqb_eq in Hv. rewrite Hv. reflexivity.
  - rewrite Z.mul_1_r, Z.add_0_r. apply valid_float. exact Hv.
  - destruct s; reflexivity.
  - reflexivity.
  - rewrite Z.mul_1_r, Z.add_0_r. apply valid_float. exact Hv.
  - destruct s; reflexivity.
  - reflexivity.
Qed.

(** ... and by zero: a finite value becomes zero, an infinity or NaN becomes NaN *)
Lemma mul_zero (r : dtype) (v : num) :
  valid r v = true -> mul_in r v (cast r (NInt 0)) = if finite v then zero_of r else NNaN.
Proof.
  intros Hv. destruct r, v as [z|k e|s|]; cbn in Hv; try discriminate;
    cbn [mul_in cast to_float float_mul finite zero_of]; unit_casts; cbn [float_mul];
    rewrite ?Z.mul_0_r; try reflexivity.
  - rewrite andb_false_r. reflexivity.
Qed.

Lemma cast_zero_of (d md : dtype) :
  kinds_ok d md = true -> cast d (zero_of (promote d md)) = zero_of d.
Proof. intros Hk. dtype_cases d md Hk; reflexivity. Qed.

(** [x *= 1] leaves every value of the array's dtype unchanged *)
Lemma imul_elem_one (d md : dtype) (v : num) :
  kinds_ok d md = true -> valid d v = true -> imul_elem d md v 1 = v.
Proof.
  intros Hk Hv. unfold imul_elem. destruct (valid_promote d md v Hk Hv) as [Hv' Hc].
  rewrite Hc, (mul_one _ _ Hv'). apply cast_valid. exact Hv.
Qed.

(** [x *= 0] *)
Lemma imul_elem_zero (d md : dtype) (v : num) :
  kinds_ok d md = true -> valid d v = true ->
  imul_elem d md v 0 = if finite v then zero_of d else NNaN.
Proof.
  intros Hk Hv. unfold imul_elem. destruct (valid_promote d md v Hk Hv) as [Hv' Hc].
  rewrite Hc, (mul_zero _ _ Hv'). destruct (finite v) eqn:F.
  - apply cast_zero_of. exact Hk.
  - destruct v; try discriminate F; destruct d; cbn in Hv; try discriminate; reflexivity.
Qed.

Lemma valid_zeroed (d : dtype) (v : num) :
  valid d v = true -> valid d (if finite v then zero_of d else NNaN) = true.
Proof.
  intros Hv. destruct v; cbn [finite]; [destruct d; reflexivity|destruct d; reflexivity| |];
    destruct d; cbn in Hv; try discriminate; reflexivity.
Qed.

(** multiplying twice by a clamped mask value is multiplying once *)
Lemma imul_elem_idem (d md : dtype) (v : num) (c : Z) :
  kinds_ok d md = true -> valid d v = true -> c = 0 \/ c = 1 ->
  imul_elem d md (imul_elem d md v c) c = imul_elem d md v c.
Proof.
  intros Hk Hv [->| ->].
  - rewrite (imul_elem_zero d md v Hk Hv).
    rewrite (imul_elem_zero d md _ Hk (valid_zeroed d v Hv)).
    destruct (finite v); [destruct d|]; reflexivity.
  - rewrite (imul_elem_one d md v Hk Hv). apply imul_elem_one; assumption.
Qed.

Lemma value_channels (img : image) (i j k : nat) (v : num) :
  shaped img -> value img i j k = Some v -> (k < channels img)%nat.
Proof.
  intros Hs H. destruct img as [d px|d px|d planes]; simpl in *.
  - destruct (k =? 0)%nat eqn:E; [apply Nat.eqb_eq in E; lia|discriminate].
  - destruct Hs as [_ Hl]. unfold at2 in H.
    destruct (nth_error px i) as [row|] eqn:Er; [|discriminate].
    destruct (nth_error row j) as [p|] eqn:Ep; [|discriminate].
    apply nth_error_In in Er, Ep. rewrite Forall_forall in Hl.
    specialize (Hl row Er). rewrite Forall_forall in Hl. rewrite <- (Hl p Ep).
    apply nth_error_Some. congruence.
  - apply nth_error_Some. destruct (nth_error planes k); congruence.
Qed.

Lemma at2_In {A} (a : list (list A)) (i j : nat) (x : A) :
  at2 a i j = Some x -> exists row, In row a /\ In x row.
Proof.
  unfold at2. destruct (nth_error a i) as [row|] eqn:E; [|discriminate].
  intros H. exists row. split; eapply nth_error_In; eassumption.
Qed.

Lemma well_formed2 (d : dtype) (px : list (list num)) :
  rect2 px -> Forall (Forall (fun v => valid d v = true)) px -> well_formed (NdArray2 d px).
Proof.
  intros Hr Hv. split; [exact Hr|]. intros i j k v H. cbn in H |- *.
  destruct (k =? 0)%nat; [|discriminate]. apply at2_In in H as [row [Hrow Hx]].
  rewrite Forall_forall in Hv. specialize (Hv row Hrow). rewrite Forall_forall in Hv. auto.
Qed.

Lemma well_formed3 (d : dtype) (px : list (list (list num))) :
  rect2 px -> Forall (Forall (fun p => length p = shape2 px)) px ->
  Forall (Forall (Forall (fun v => valid d v = true))) px -> well_formed (NdArray3 d px).
Proof.
  intros Hr Hl Hv. split; [split; assumption|]. intros i j k v H. cbn in H |- *.
  destruct (at2 px i j) as [p|] eqn:E; [|discriminate].
  apply at2_In in E as [row [Hrow Hp]]. apply nth_error_In in H.
  rewrite Forall_forall in Hv. specialize (Hv row Hrow). rewrite Forall_forall in Hv.
  specialize (Hv p Hp). rewrite Forall_forall in Hv. auto.
Qed.

Lemma fits_self (m : list (list Z)) : fits (shape2d m) m = true.
Proof. unfold fits, fits_out. rewrite !Nat.eqb_refl. reflexivity. Qed.

End ApplyMaskElem.

Module ApplyMaskClaims.
Import ApplyMask ApplyMaskFacts ApplyMaskImage ApplyMaskElem.

(** C6 (corrected): [apply_mask] clamps the mask values greater than 0 to 1
    in the caller's mask. The in-place [img *= mask] raises TypeError when
    numpy's loop dtype [promote d md] does not cast back to the image's
    dtype [d] under 'same_kind' (a uint8 image with an int64 or float64
    mask, a bool image with a non-bool mask), and ValueError when the mask
    does not broadcast to the image's planes ([fits]). Otherwise, for a
    mask of the image's height and width, the call succeeds with an image
    of the same dtype and shape in which every channel value at a position
    where the mask is 0 is zero when finite (an infinity or NaN becomes
    NaN) and every value at a position where the mask is greater than 0 is
    unchanged. *)
Theorem apply_mask_pixels (img : image) (mask : ndarray2) :
  well_formed img -> rect2 (data mask) ->
  snd (apply_mask img mask) = mkArray2 (dt mask) (clamp (data mask)) /\
  ((0 < channels img)%nat -> same_kind (promote (img_dtype img) (dt mask)) (img_dtype img) = false ->
     exists msg, fst (apply_mask img mask) = Raise (TypeError msg)) /\
  ((0 < channels img)%nat -> same_kind (promote (img_dtype img) (dt mask)) (img_dtype img) = true ->
     fits (plane_shape img) (data mask) = false ->
     exists msg, fst (apply_mask img mask) = Raise (ValueError msg)) /\
  (same_kind (promote (img_dtype img) (dt mask)) (img_dtype img) = true ->
   plane_shape img = shape2d (data mask) ->
   exists img', fst (apply_mask img mask) = Ok img' /\
     img_dtype img' = img_dtype img /\ shaped img' /\
     channels img' = channels img /\ plane_shape img' = plane_shape img /\
     forall i j k m v, at2 (data mask) i j = Some m -> value img i j k = Some v ->
       (m = 0 -> value img' i j k = Some (if finite v then zero_of (img_dtype img) else NNaN)) /\
       (0 < m -> value img' i j k = Some v)).
Proof.
  intros [Hs Hv] Hr. split; [reflexivity|]. split; [|split].
  - intros Hc Hk. apply apply_mask_type_error; assumption.
  - intros Hc Hk Hf. apply apply_mask_value_error; assumption.
  - intros Hk Hp.
    assert (Hok : fst (apply_mask img mask) = Ok (masked img (dt mask) (clamp (data mask)))).
    { apply apply_mask_ok; [exact Hs|right]. split; [exact Hk|]. rewrite Hp. apply fits_self. }
    destruct (masked_shape img (dt mask) (clamp (data mask)) Hs) as [Hs' [Hc' Hp']].
    eexists. split; [exact Hok|]. split; [apply masked_dtype|].
    split; [exact Hs'|]. split; [exact Hc'|]. split; [exact Hp'|].
    intros i j k m v Hm Hval.
    assert (Hm' : at2 (clamp (data mask)) i j = Some (clamp1 m)) by (rewrite at2_clamp, Hm; reflexivity).
    rewrite (value_masked img (dt mask) (clamp (data mask)) i j k (clamp1 m) Hs (rect2_clamp _ Hr) Hm'), Hval.
    cbn [option_map]. specialize (Hv i j k v Hval). split.
    + intros ->. change (clamp1 0) with 0. rewrite (imul_elem_zero _ _ _ Hk Hv). reflexivity.
    + intros Hpos. unfold clamp1. rewrite (proj2 (Z.ltb_lt 0 m) Hpos).
      rewrite (imul_elem_one _ _ _ Hk Hv). reflexivity.
Qed.

Definition cex_img : image := NdArray2 UInt8 [[NInt 5; NInt 6]].
Definition cex_mask : ndarray2 := mkArray2 Float64 [[0; 1]].

(** C6 counterexample: a 1x2 uint8 image with a float64 mask of the same
    shape. [img *= mask] computes in float64 and may not cast the result
    back to uint8 under 'same_kind': the call raises TypeError and no pixel
    is zeroed. *)
Lemma apply_mask_pixels_cex :
  well_formed cex_img /\ rect2 (data cex_mask) /\
  plane_shape cex_img = shape2d (data cex_mask) /\
  fst (apply_mask cex_img cex_mask) =
    Raise (TypeError "Cannot cast ufunc 'multiply' output from dtype('float64') to dtype('uint8') with casting rule 'same_kind'").
Proof.
  split; [apply well_formed2; repeat constructor|].
  split; [repeat constructor|split; reflexivity].
Qed.

Definition px0 : list (list (list num)) :=
  [[[NInt 5; NInt 6]; [NInt 7; NInt 8]]; [[NInt 9; NInt 10]; [NInt 11; NInt 12]]].

Lemma apply_mask_pixels_witness :
  exists img', fst (apply_mask (NdArray3 UInt8 px0) (mkArray2 UInt8 [[0; 3]; [1; 0]])) = Ok img' /\
    value img' 0 0 1 = Some (NInt 0) /\ value img' 0 1 1 = Some (NInt 8).
Proof.
  assert (Hwf : well_formed (NdArray3 UInt8 px0))
    by (apply well_formed3; repeat constructor).
  destruct (apply_mask_pixels (NdArray3 UInt8 px0) (mkArray2 UInt8 [[0; 3]; [1; 0]])
              Hwf ltac:(repeat constructor)) as [_ [_ [_ H]]].
  destruct (H eq_refl eq_refl) as [img' [E [_ [_ [_ [_ Hp]]]]]].
  exists img'. split; [exact E|split].
  - exact (proj1 (Hp 0%nat 0%nat 1%nat 0 (NInt 6) eq_refl eq_refl) eq_refl).
  - exact (proj2 (Hp 0%nat 1%nat 1%nat 3 (NInt 8) eq_refl eq_refl) ltac:(lia)).
Defined.

(** C10: [apply_mask] writes the clamping into the caller's mask object:
    afterwards every value greater than 1 of the caller's mask is 1, so a
    mask holding such a value does not keep its contents across the call. *)
Theorem apply_mask_mutates_mask (img : image) (mask : ndarray2) :
  (exists i j m, at2 (data mask) i j = Some m /\ 1 < m) ->
  snd (apply_mask img mask) = mkArray2 (dt mask) (clamp (data mask)) /\
  (forall i j m, at2 (data mask) i j = Some m -> 1 < m ->
     at2 (data (snd (apply_mask img mask))) i j = Some 1) /\
  data (snd (apply_mask img mask)) <> data mask.
Proof.
  intros [i0 [j0 [m0 [Hm0 Hgt0]]]].
  assert (Hs : snd (apply_mask img mask) = mkArray2 (dt mask) (clamp (data mask)))
    by reflexivity.
  split; [exact Hs|]. split.
  - intros i j m Hm Hgt. rewrite Hs. simpl. rewrite at2_clamp, Hm. simpl. unfold clamp1.
    rewrite (proj2 (Z.ltb_lt 0 m)) by lia. reflexivity.
  - rewrite Hs. simpl. intros Heq.
    assert (E : at2 (clamp (data mask)) i0 j0 = Some 1).
    { rewrite at2_clamp, Hm0. simpl. unfold clamp1. rewrite (proj2 (Z.ltb_lt 0 m0)) by lia. reflexivity. }
    rewrite Heq, Hm0 in E. injection E as E. lia.
Qed.

Lemma apply_mask_mutates_mask_witness :
  data (snd (apply_mask (NdArray2 UInt8 [[NInt 4; NInt 4]; [NInt 4; NInt 4]])
                        (mkArray2 UInt8 [[0; 2]; [1; 0]])))
  = [[0; 1]; [1; 0]].
Proof.
  destruct (apply_mask_mutates_mask (NdArray2 UInt8 [[NInt 4; NInt 4]; [NInt 4; NInt 4]])
              (mkArray2 UInt8 [[0; 2]; [1; 0]])
              (ex_intro _ 0%nat (ex_intro _ 1%nat (ex_intro _ 2 (conj eq_refl eq_refl)))))
    as [Hs _].
  rewrite Hs. reflexivity.
Defined.

End ApplyMaskClaims.

Module ApplyMaskExtras.
Import ApplyMask ApplyMaskFacts ApplyMaskImage ApplyMaskElem.

(** X17: calling [apply_mask] again with the mask the first call left
    behind changes nothing more: the mask stays as it is (clamping is
    idempotent), a second call on the original image has the first call's
    outcome, success or exception, and a second call on the first call's
    result succeeds and leaves every value at a position where the mask
    was not negative as it was. *)
Theorem apply_mask_reapply (img : image) (mask : ndarray2) :
  well_formed img -> rect2 (data mask) ->
  (forall img0, snd (apply_mask img0 (snd (apply_mask img mask))) = snd (apply_mask img mask)) /\
  fst (apply_mask img (snd (apply_mask img mask))) = fst (apply_mask img mask) /\
  (forall img1, fst (apply_mask img mask) = Ok img1 ->
     exists img2, fst (apply_mask img1 (snd (apply_mask img mask))) = Ok img2 /\
       forall i j k m, at2 (data mask) i j = Some m -> 0 <= m ->
         value img2 i j k = value img1 i j k).
Proof.
  intros [Hs Hv] Hr.
  assert (Hsnd : snd (apply_mask img mask) = mkArray2 (dt mask) (clamp (data mask)))
    by reflexivity.
  assert (Hfst : forall img0, fst (apply_mask img0 (mkArray2 (dt mask) (clamp (data mask)))) =
                              fst (apply_mask img0 mask)).
  { intros img0. unfold apply_mask. cbn [dtype_is_np_bool dt data fst]. rewrite clamp_idem.
    reflexivity. }
  rewrite Hsnd. split; [|split].
  - intros img0. unfold apply_mask. cbn. rewrite clamp_idem. reflexivity.
  - apply Hfst.
  - intros img1 H1. rewrite Hfst.
    destruct (apply_mask_ok_inv img img1 mask Hs H1) as [-> Hc].
    destruct (masked_shape img (dt mask) (clamp (data mask)) Hs) as [Hs1 [Hc1 Hp1]].
    eexists. split.
    + apply apply_mask_ok; [exact Hs1|]. rewrite Hc1, Hp1.
      unfold kind_ok in *. rewrite masked_dtype. exact Hc.
    + intros i j k m Hm Hm0.
      assert (Hm' : at2 (clamp (data mask)) i j = Some (clamp1 m)) by (rewrite at2_clamp, Hm; reflexivity).
      assert (Hr' := rect2_clamp _ Hr).
      rewrite (value_masked _ _ _ i j k (clamp1 m) Hs1 Hr' Hm'), masked_dtype.
      rewrite (value_masked _ _ _ i j k (clamp1 m) Hs Hr' Hm').
      destruct (value img i j k) as [v|] eqn:Ev; [|reflexivity]. cbn [option_map].
      f_equal. apply imul_elem_idem.
      * destruct Hc as [Hc|[Hk _]]; [|exact Hk].
        pose proof (value_channels img i j k v Hs Ev). lia.
      * exact (Hv i j k v Ev).
      * unfold clamp1. destruct (Z.ltb_spec 0 m); [right; reflexivity|left; lia].
Qed.

Definition px1 : list (list (list num)) :=
  [[[NInt 5; NInt 6]; [NInt 7; NInt 8]]; [[NInt 9; NInt 10]; [NInt 11; NInt 12]]].
Definition mask0 : ndarray2 := mkArray2 UInt8 [[0; 3]; [1; 0]].

Lemma apply_mask_reapply_witness :
  fst (apply_mask (NdArray3 UInt8 px1) (snd (apply_mask (NdArray3 UInt8 px1) mask0)))
  = fst (apply_mask (NdArray3 UInt8 px1) mask0).
Proof.
  assert (Hwf : well_formed (NdArray3 UInt8 px1))
    by (apply well_formed3; repeat constructor).
  exact (proj1 (proj2 (apply_mask_reapply (NdArray3 UInt8 px1) mask0
                         Hwf ltac:(repeat constructor)))).
Defined.

End ApplyMaskExtras.
